(** * Harmonic chains: parser, dynamical matrix and characteristic polynomial

    A shallow embedding of the two classes of the notebook,
    [SymbolicMolecularChain] (SymPy backend) and [MolecularChainNumeric]
    (NumPy backend), and of [SymbolicEigenSolver.characteristic_polynomial].

    - A Python string is a list of characters.  The character type and the
      predicate [isalpha] (Python's [str.isalpha] on one character) are
      parameters of the development; [Latin1] instantiates them with 8-bit
      characters.
    - A Python dict is a finite map ([gmap]).
    - Masses and spring constants live in a field [F] (exact arithmetic).
      Division is the total division of the field: dividing by a zero mass
      is outside the model (Python raises, NumPy yields inf, SymPy zoo), so
      statements whose content depends on a quotient being meaningful assume
      non-zero masses.
    - Python exceptions are values of [exn], carried by [result]. *)

From Stdlib Require Import Field QArith Qcanon Ascii.
From Stdlib Require String.
From Equations Require Import Equations.
From Equations.Prop Require Import Logic.
From stdpp Require Import gmap strings list.

Close Scope Qc_scope.
Close Scope Q_scope.

(** ** Exceptions and results *)

Inductive exn (char : Type) : Type :=
| KeyError (key : char)
| IndexError.
Arguments KeyError {char} key.
Arguments IndexError {char}.

Inductive result (E A : Type) : Type :=
| Ok (a : A)
| Err (e : E).
Arguments Ok {E A} a.
Arguments Err {E A} e.

Definition rbind {E A B} (r : result E A) (f : A → result E B) : result E B :=
  match r with
  | Ok a => f a
  | Err e => Err e
  end.

Notation "x ← r ;;; k" := (rbind r (λ x, k))
  (at level 20, r at level 100, k at level 200, right associativity,
   format "x  ←  r  ;;;  '/' k").

Definition raises {E A} (r : result E A) : Prop := ∃ e, r = Err e.


(** [for i in range: s = body(i, s)], stopping at the first exception. *)
Fixpoint for_each {E S} (range : list nat) (body : nat → S → result E S) (s : S)
    : result E S :=
  match range with
  | [] => Ok s
  | i :: range' => s' ← body i s ;;; for_each range' body s'
  end.

(** [[f(x) for x in l]], stopping at the first exception. *)
Fixpoint list_comp {E A B} (f : A → result E B) (l : list A)
    : result E (list B) :=
  match l with
  | [] => Ok []
  | x :: l' => y ← f x ;;; ys ← list_comp f l' ;;; Ok (y :: ys)
  end.

(** [d[key]] on a dict. *)
Definition dict_get `{Countable char} {V} (d : gmap char V) (key : char)
    : result (exn char) V :=
  match d !! key with
  | Some v => Ok v
  | None => Err (KeyError key)
  end.

(** [key in d] on a dict. *)
Definition in_dict `{Countable char} {V} (key : char) (d : gmap char V) : bool :=
  bool_decide (is_Some (d !! key)).

(** [l[i]] on a list or array, for an index [i >= 0]. *)
Definition list_get {char A} (l : list A) (i : nat) : result (exn char) A :=
  match l !! i with
  | Some x => Ok x
  | None => Err IndexError
  end.

(** ** Exact arithmetic *)

Class FieldOps (F : Type) := {
  f0 : F; f1 : F;
  fadd : F → F → F; fmul : F → F → F; fsub : F → F → F; fopp : F → F;
  fdiv : F → F → F; finv : F → F }.

Class Field (F : Type) `{FieldOps F} :=
  field_laws : field_theory f0 f1 fadd fmul fsub fopp fdiv finv eq.

Declare Scope fld_scope.
Delimit Scope fld_scope with fld.
Notation "0" := f0 : fld_scope.
Notation "1" := f1 : fld_scope.
Notation "2" := (fadd f1 f1) : fld_scope.
Infix "+" := fadd : fld_scope.
Infix "*" := fmul : fld_scope.
Infix "-" := fsub : fld_scope.
Infix "/" := fdiv : fld_scope.
Notation "- x" := (fopp x) : fld_scope.

#[export] Instance Qc_ops : FieldOps Qc := {|
  f0 := Q2Qc 0; f1 := Q2Qc 1;
  fadd := Qcplus; fmul := Qcmult; fsub := Qcminus; fopp := Qcopp;
  fdiv := Qcdiv; finv := Qcinv |}.

#[export] Instance Qc_field : Field Qc := Qcft.

(** ** Dense matrices: a list of rows *)

Section Matrix.
Context {char F : Type} `{FieldOps F}.

Local Abbreviation matrix := (list (list F)).

(** [zeros(n)]: the n-by-n matrix of zeros. *)
Definition zeros (n : nat) : matrix := replicate n (replicate n f0).

(** [eye(n)]: the n-by-n identity. *)
Definition eye (n : nat) : matrix :=
  (λ i, (λ j, if decide (i = j) then f1 else f0) <$> seq 0 n) <$> seq 0 n.

(** [A[i, j]] *)
Definition mat_get (A : matrix) (i j : nat) : result (exn char) F :=
  row ← list_get A i ;;; list_get row j.

(** [A[i, j] = v] *)
Definition mat_set (A : matrix) (i j : nat) (v : F)
    : result (exn char) matrix :=
  row ← list_get A i ;;;
  _ ← list_get (char := char) row j ;;;
  Ok (<[i := <[j := v]> row]> A).

(** [c * A] and [A - B], entry by entry. *)
Definition mat_scale (c : F) (A : matrix) : matrix :=
  (λ row : list F, fmul c <$> row) <$> A.

Definition mat_sub (A B : matrix) : matrix :=
  zip_with (zip_with fsub) A B.

Definition vsum (l : list F) : F := foldr fadd f0 l.

(** [A @ v] *)
Definition mat_vec (A : matrix) (v : list F) : list F :=
  (λ row : list F, vsum (zip_with fmul row v)) <$> A.

(** [x0 - x1 + x2 - ...] *)
Fixpoint alt_sum (l : list F) : F :=
  match l with
  | [] => f0
  | x :: l' => fsub x (alt_sum l')
  end.

(** The determinant of an n-by-n matrix ([Matrix.det]), by cofactor
    expansion along the first row. *)
Fixpoint det (n : nat) (A : matrix) : F :=
  match n, A with
  | S n', row :: rest =>
      alt_sum (imap (λ j a, fmul a (det n' (delete j <$> rest))) row)
  | _, _ => f1
  end.

(** Is [A] equal to its transpose on the indices below [n]? *)
Definition symmetric (n : nat) (A : matrix) : Prop :=
  ∀ i j, i < n → j < n → mat_get A i j = mat_get A j i.
End Matrix.

(** ** The data model shared by the two pipelines *)

Record Chain (char F : Type) `{Countable char} := {
  structure : list char;
  mass_dict : gmap char F;
  spring_dict : gmap char F;
  atoms : list char;
  bonds : list char;
  N : nat }.
Arguments structure {char F _ _} c.
Arguments mass_dict {char F _ _} c.
Arguments spring_dict {char F _ _} c.
Arguments atoms {char F _ _} c.
Arguments bonds {char F _ _} c.
Arguments N {char F _ _} c.

(** [i + 1 < len(structure) and structure[i + 1] in self.spring_dict]:
    the character read at [i + 1] when the test succeeds. *)
Definition bond_at `{Countable char} {V} (spring_dict : gmap char V)
    (structure : list char) (i : nat) : option char :=
  match structure !! (i + 1) with
  | Some b => if in_dict b spring_dict then Some b else None
  | None => None
  end.

(** ** class SymbolicMolecularChain *)

Module SymbolicMolecularChain.
Section Class.
Context {char F : Type} `{Countable char} `{FieldOps F}.
Variable isalpha : char → bool.
Local Abbreviation matrix := (list (list F)).

(** The [while i < len(structure)] loop, with the loop variables [i],
    [atoms], [bonds] as arguments; [structure !! i] is [Some] exactly when
    [i < len(structure)]. *)
Equations? parse_loop (spring_dict : gmap char F) (structure : list char)
    (i : nat) (atoms bonds : list char) : list char * list char
    by wf (length structure - i) lt :=
  parse_loop sd s i atoms bonds with inspect (s !! i) := {
    | exist _ None _ := (atoms, bonds)
    | exist _ (Some c) Hc with isalpha c := {
        | true with bond_at sd s i := {
            | Some b := parse_loop sd s (i + 2) (atoms ++ [c]) (bonds ++ [b])
            | None := parse_loop sd s (i + 1) (atoms ++ [c]) bonds }
        | false := parse_loop sd s (i + 1) atoms bonds } }.
Proof.
  all: apply lookup_lt_Some in Hc; lia.
Qed.

Definition _parse_structure (spring_dict : gmap char F)
    (structure : list char) : list char * list char :=
  parse_loop spring_dict structure 0 [] [].

Definition __init__ (structure : list char) (mass_dict spring_dict : gmap char F)
    : result (exn char) (Chain char F) :=
  let '(atoms, bonds) := _parse_structure spring_dict structure in
  Ok {| structure := structure; mass_dict := mass_dict;
        spring_dict := spring_dict; atoms := atoms; bonds := bonds;
        N := length atoms |}.

(** The body of [for i in range(self.N)].  [N - 1] is only read for
    [i < N], where the subtraction does not truncate.  [/] is the division
    of the field, so the model follows the code where the masses divided by
    are not zero; at a zero mass Python raises [ZeroDivisionError] on plain
    numbers and SymPy returns [zoo], which is not modelled. *)
Definition build_row (N : nat) (m k : list F) (i : nat) (A : matrix)
    : result (exn char) matrix :=
  A ← (if decide (0 < i) then
         ki ← list_get k (i - 1) ;;;
         mi ← list_get m i ;;;
         A ← mat_set A i (i - 1) (- ki / mi)%fld ;;;
         a ← mat_get A i i ;;;
         ki ← list_get k (i - 1) ;;;
         mi ← list_get m i ;;;
         mat_set A i i (a + ki / mi)%fld
       else Ok A) ;;;
  if decide (i < N - 1) then
    ki ← list_get k i ;;;
    mi ← list_get m i ;;;
    A ← mat_set A i (i + 1) (- ki / mi)%fld ;;;
    a ← mat_get A i i ;;;
    ki ← list_get k i ;;;
    mi ← list_get m i ;;;
    mat_set A i i (a + ki / mi)%fld
  else Ok A.

Definition build_matrix (self : Chain char F) : result (exn char) matrix :=
  m ← list_comp (dict_get (mass_dict self)) (atoms self) ;;;
  k ← list_comp (dict_get (spring_dict self)) (bonds self) ;;;
  for_each (seq 0 (N self)) (build_row (N self) m k) (zeros (N self)).
End Class.
End SymbolicMolecularChain.

(** ** class SymbolicEigenSolver *)

Module SymbolicEigenSolver.
Section Class.
Context {F : Type} `{FieldOps F}.

(** [(self.matrix - self.lambda_sym * sp.eye(self.N)).det()], as a
    function of the unknown; [self.N] is [matrix.shape[0]]. *)
Definition characteristic_polynomial (matrix : list (list F)) (lambda : F) : F :=
  let N := length matrix in
  det N (mat_sub matrix (mat_scale lambda (eye N))).

(** [eigenvalues] returns the solutions of
    [characteristic_polynomial = 0] in the unknown. *)
Definition eigenvalue (matrix : list (list F)) (lambda : F) : Prop :=
  characteristic_polynomial matrix lambda = f0.
End Class.
End SymbolicEigenSolver.

(** ** class MolecularChainNumeric *)

Module MolecularChainNumeric.
Section Class.
Context {char F : Type} `{Countable char} `{FieldOps F}.
Variable isalpha : char → bool.
Local Abbreviation matrix := (list (list F)).

Equations? parse_loop (spring_dict : gmap char F) (structure : list char)
    (i : nat) (atoms bonds : list char) : list char * list char
    by wf (length structure - i) lt :=
  parse_loop sd s i atoms bonds with inspect (s !! i) := {
    | exist _ None _ := (atoms, bonds)
    | exist _ (Some c) Hc with isalpha c := {
        | true with bond_at sd s i := {
            | Some b := parse_loop sd s (i + 2) (atoms ++ [c]) (bonds ++ [b])
            | None := parse_loop sd s (i + 1) (atoms ++ [c]) bonds }
        | false := parse_loop sd s (i + 1) atoms bonds } }.
Proof.
  all: apply lookup_lt_Some in Hc; lia.
Qed.

Definition _parse_structure (spring_dict : gmap char F)
    (structure : list char) : list char * list char :=
  parse_loop spring_dict structure 0 [] [].

Definition __init__ (structure : list char) (mass_dict spring_dict : gmap char F)
    : result (exn char) (Chain char F) :=
  let '(atoms, bonds) := _parse_structure spring_dict structure in
  Ok {| structure := structure; mass_dict := mass_dict;
        spring_dict := spring_dict; atoms := atoms; bonds := bonds;
        N := length atoms |}.

(** The body of [for i in range(self.N)], on NumPy arrays.  In exact
    arithmetic it is the loop of the symbolic class; at a zero mass NumPy
    returns [inf] or [nan], which is not modelled. *)
Definition build_row (N : nat) (m k : list F) (i : nat) (A : matrix)
    : result (exn char) matrix :=
  A ← (if decide (0 < i) then
         ki ← list_get k (i - 1) ;;;
         mi ← list_get m i ;;;
         A ← mat_set A i (i - 1) (- ki / mi)%fld ;;;
         a ← mat_get A i i ;;;
         ki ← list_get k (i - 1) ;;;
         mi ← list_get m i ;;;
         mat_set A i i (a + ki / mi)%fld
       else Ok A) ;;;
  if decide (i < N - 1) then
    ki ← list_get k i ;;;
    mi ← list_get m i ;;;
    A ← mat_set A i (i + 1) (- ki / mi)%fld ;;;
    a ← mat_get A i i ;;;
    ki ← list_get k i ;;;
    mi ← list_get m i ;;;
    mat_set A i i (a + ki / mi)%fld
  else Ok A.

(** [np.array] of the two lists and [np.zeros((N, N))]. *)
Definition build_matrix (self : Chain char F) : result (exn char) matrix :=
  m ← list_comp (dict_get (mass_dict self)) (atoms self) ;;;
  k ← list_comp (dict_get (spring_dict self)) (bonds self) ;;;
  for_each (seq 0 (N self)) (build_row (N self) m k) (zeros (N self)).
End Class.
End MolecularChainNumeric.

(** ** Strings of 8-bit characters

    Code points 0 to 255, with [str.isalpha] as Python defines it there:
    the ASCII letters, and the Latin-1 letters U+00AA, U+00B5, U+00BA,
    U+00C0 to U+00D6, U+00D8 to U+00F6 and U+00F8 to U+00FF. *)

Module Latin1.
Definition isalpha (c : ascii) : bool :=
  let n := nat_of_ascii c in
  (65 <=? n) && (n <=? 90) || (97 <=? n) && (n <=? 122)
  || (n =? 170) || (n =? 181) || (n =? 186)
  || (192 <=? n) && (n <=? 214) || (216 <=? n) && (n <=? 246)
  || (248 <=? n).

(** A Python string literal. *)
Definition str (s : string) : list ascii := String.list_ascii_of_string s.
End Latin1.

(** ** The chains of the notebook *)

Module Examples.
(** [{'O': mO, 'C': mC}] *)
Definition masses {F} (mO mC : F) : gmap ascii F :=
  {[ "O"%char := mO; "C"%char := mC ]}.

(** [{'=': k}] *)
Definition springs {F} (k : F) : gmap ascii F := {[ "="%char := k ]}.

(** An integer as an exact rational. *)
Definition qc (z : Z) : Qc := Q2Qc (inject_Z z).

(** The numerators and denominators of a matrix of rationals. *)
Definition values (A : list (list Qc)) : list (list Q) :=
  (λ row : list Qc, this <$> row) <$> A.
End Examples.

(** ** What [np.linalg.eigh] is given

    [NumericEigenSolver.solve] hands the matrix to [np.linalg.eigh], a NumPy
    routine for symmetric matrices.  With its default [UPLO='L'] it reads the
    lower triangle of its argument only, so that it decomposes the symmetric
    matrix whose entry [(i, j)] is entry [(max i j, min i j)] of the
    argument. *)

Module NumericEigenSolver.
Definition lower_triangle {F} (matrix : list (list F)) : list (list F) :=
  imap (λ i row,
          imap (λ j x, if decide (j ≤ i) then x
                       else default x (matrix !! j ≫= (λ r, r !! i))) row)
       matrix.
End NumericEigenSolver.

(** ** The specification's side *)

Section Specification.
Context {char F : Type} `{Countable char} `{FieldOps F}.
Variable isalpha : char → bool.

(** The scan as the specification words it, on the rest of the string:
    an alphabetic character starts an atom; a recognised bond symbol right
    after it is consumed with it; anything else is skipped. *)
Fixpoint scan (spring_dict : gmap char F) (s : list char)
    : list char * list char :=
  match s with
  | [] => ([], [])
  | c :: rest =>
      if isalpha c then
        match rest with
        | b :: rest' =>
            if in_dict b spring_dict
            then let '(atoms, bonds) := scan spring_dict rest' in
                 (c :: atoms, b :: bonds)
            else let '(atoms, bonds) := scan spring_dict rest in
                 (c :: atoms, bonds)
        | [] => ([c], [])
        end
      else scan spring_dict rest
  end.

(** [k_b / m_i]: the spring constant of bond [b] over the mass of atom [i]. *)
Definition ratio (m k : list F) (b i : nat) : F :=
  (nth b k 0 / nth i m 0)%fld.

(** The matrix of section 4.2: entry [(i, j)] for [N] atoms of masses [m]
    joined by springs [k]. *)
Definition dynamical_entry (N : nat) (m k : list F) (i j : nat) : F :=
  if decide (j = i) then
    ((if decide (0 < i) then ratio m k (i - 1) i else 0)
     + (if decide (i < N - 1) then ratio m k i i else 0))%fld
  else if decide (0 < i ∧ j = i - 1) then (- ratio m k (i - 1) i)%fld
  else if decide (i < N - 1 ∧ j = i + 1) then (- ratio m k i i)%fld
  else 0%fld.

Definition dynamical_row (N : nat) (m k : list F) (i : nat) : list F :=
  dynamical_entry N m k i <$> seq 0 N.

Definition dynamical_matrix (N : nat) (m k : list F) : list (list F) :=
  dynamical_row N m k <$> seq 0 N.

(** The matrix after the iterations [0 .. t-1] of [build_matrix]. *)
Definition partial_matrix (N : nat) (m k : list F) (t : nat) : list (list F) :=
  (λ i, if decide (i < t) then dynamical_row N m k i else replicate N 0%fld)
    <$> seq 0 N.

(** The first symbol of [l] that is not a key of [d]. *)
Definition first_missing (d : gmap char F) (l : list char) : option char :=
  head (filter (λ a, d !! a = None) l).

(** A structure string as section 6 asks for it: atoms and recognised bond
    symbols alternate, starting and ending with an atom. *)
Fixpoint valid_structure (spring_dict : gmap char F) (s : list char) : bool :=
  match s with
  | [] => false
  | c :: rest =>
      isalpha c &&
      match rest with
      | [] => true
      | b :: rest' => in_dict b spring_dict && valid_structure spring_dict rest'
      end
  end.

Context `{EqDecision F}.

(** Is entry [(i, j)] of [A] there and different from zero? *)
Definition nonzero_at (A : list (list F)) (i j : nat) : bool :=
  match A !! i ≫= (λ row, row !! j) with
  | Some x => bool_decide (x ≠ 0%fld)
  | None => false
  end.

(** The index pairs [i < j < n]. *)
Definition upper_pairs (n : nat) : list (nat * nat) :=
  i ← seq 0 n; (λ j, (i, j)) <$> seq (S i) (n - S i).

(** The off-diagonal pairs [(i, j)], [(j, i)] of [A] that are not both zero. *)
Definition offdiag_nonzero_pairs (n : nat) (A : list (list F))
    : list (nat * nat) :=
  filter (λ p, nonzero_at A p.1 p.2 || nonzero_at A p.2 p.1) (upper_pairs n).
End Specification.

(** ** Further notions used to state what the code does *)

Section Positions.
Context {A : Type}.

(** The elements at the even positions and those at the odd positions. *)
Fixpoint alternate (l : list A) : list A * list A :=
  match l with
  | [] => ([], [])
  | x :: l' => let '(odd, even) := alternate l' in (x :: even, odd)
  end.
End Positions.

Section Blocks.
Context {F : Type} `{FieldOps F}.

(** The square block of [n] rows and columns that starts at [(j, j)] in the
    matrix whose entry [(i, c)] is [E i c]. *)
Definition block (E : nat → nat → F) (j n : nat) : list (list F) :=
  (λ i, E i <$> seq j n) <$> seq j n.

(** [k_{j-1}/m_j * k_j/m_{j+1} * ...], [n] factors. *)
Fixpoint ratio_product (m k : list F) (j n : nat) : F :=
  match n with
  | 0 => f1
  | S n' => fmul (ratio m k (j - 1) j) (ratio_product m k (S j) n')
  end.
End Blocks.

(** ** The estimates of the spring constants (notebook cells 7, 8 and 10)

    [w] stands for an angular frequency, [m] and [M] for the masses. *)

Module Estimates.
Section Cells.
Context {F : Type} `{FieldOps F}.

(** [k_from_w2 = w_2**2 * m] *)
Definition k_from_w2 (w_2 m : F) : F := fmul (fmul w_2 w_2) m.

(** [k_from_w3 = w_3**2 / (1/m + 2/M)] *)
Definition k_from_w3 (w_3 m M : F) : F :=
  fdiv (fmul w_3 w_3) (fadd (fdiv f1 m) (fdiv (fadd f1 f1) M)).

(** [k_avg = (k_from_w2 + k_from_w3) / 2] *)
Definition k_avg (k_from_w2 k_from_w3 : F) : F :=
  fdiv (fadd k_from_w2 k_from_w3) (fadd f1 f1).

(** [(w_cc**2) * M / 2] *)
Definition K_from_wcc (w_cc M : F) : F :=
  fdiv (fmul (fmul w_cc w_cc) M) (fadd f1 f1).
End Cells.
End Estimates.

Section ParserFacts.
Context {char F : Type} `{Countable char} `{FieldOps F}.
Variable isalpha : char → bool.
Implicit Types (sd : gmap char F) (s : list char).

Lemma bond_at_Some sd s i b :
  bond_at sd s i = Some b → s !! (S i) = Some b ∧ in_dict b sd = true.
Proof.
  unfold bond_at. rewrite Nat.add_1_r.
  destruct (s !! S i) as [b'|]; [|done].
  destruct (in_dict b' sd) eqn:E; [|done]. by intros [= <-].
Qed.

Lemma bond_at_None sd s i :
  bond_at sd s i = None →
  s !! (S i) = None ∨ ∃ b, s !! (S i) = Some b ∧ in_dict b sd = false.
Proof.
  unfold bond_at. rewrite Nat.add_1_r.
  destruct (s !! S i) as [b'|]; [|by left].
  destruct (in_dict b' sd) eqn:E; [done|]. right. by exists b'.
Qed.

(** One step of [scan], case by case. *)
Lemma scan_skip sd c rest :
  isalpha c = false → scan isalpha sd (c :: rest) = scan isalpha sd rest.
Proof. simpl. by intros ->. Qed.

Lemma scan_atom_end sd c : isalpha c = true → scan isalpha sd [c] = ([c], []).
Proof. simpl. by intros ->. Qed.

Lemma scan_atom_bond sd c b rest :
  isalpha c = true → in_dict b sd = true →
  scan isalpha sd (c :: b :: rest)
  = (c :: (scan isalpha sd rest).1, b :: (scan isalpha sd rest).2).
Proof.
  intros Hc Hb. cbn [scan]. rewrite Hc, Hb. by destruct (scan isalpha sd rest).
Qed.

Lemma scan_atom_no_bond sd c b rest :
  isalpha c = true → in_dict b sd = false →
  scan isalpha sd (c :: b :: rest)
  = (c :: (scan isalpha sd (b :: rest)).1, (scan isalpha sd (b :: rest)).2).
Proof.
  intros Hc Hb. change (scan isalpha sd (c :: b :: rest)) with
    (if isalpha c then
       if in_dict b sd
       then let '(atoms, bonds) := scan isalpha sd rest in (c :: atoms, b :: bonds)
       else let '(atoms, bonds) := scan isalpha sd (b :: rest) in (c :: atoms, bonds)
     else scan isalpha sd (b :: rest)).
  rewrite Hc, Hb. by destruct (scan isalpha sd (b :: rest)).
Qed.

(** After [funelim] on a parse loop: rewrite the rest of the string by
    what the loop read, then unfold one step of [scan]. *)
Ltac loop_case sd :=
  repeat match goal with
    | E : bond_at sd _ _ = Some _ |- _ =>
        apply bond_at_Some in E; destruct E as [? ?]
    | E : bond_at sd _ _ = None |- _ =>
        apply bond_at_None in E; destruct E as [?|(? & ? & ?)]
    | IH : _ = (_ ++ (scan _ _ _).1, _) |- _ = _ => rewrite IH; clear IH
    end;
  repeat match goal with
    | |- context [?i + 2] => replace (i + 2) with (S (S i)) by lia
    end;
  rewrite ?Nat.add_1_r;
  repeat match goal with
    | E : ?s !! ?i = None |- context [drop ?i ?s] =>
        rewrite (drop_ge s i) by (by apply lookup_ge_None)
    | E : ?s !! ?i = Some ?c |- context [drop ?i ?s] =>
        rewrite (drop_S s c i E)
    end;
  first [ rewrite scan_skip by done
        | rewrite scan_atom_end by done
        | rewrite scan_atom_bond by done
        | rewrite scan_atom_no_bond by done
        | idtac ];
  cbn [fst snd scan]; rewrite <- ?app_assoc, ?app_nil_r; reflexivity.

Lemma symbolic_parse_loop_scan sd s i atoms bonds :
  SymbolicMolecularChain.parse_loop isalpha sd s i atoms bonds
  = (atoms ++ (scan isalpha sd (drop i s)).1,
     bonds ++ (scan isalpha sd (drop i s)).2).
Proof.
  funelim (SymbolicMolecularChain.parse_loop isalpha sd s i atoms bonds);
    loop_case sd.
Qed.

Lemma numeric_parse_loop_scan sd s i atoms bonds :
  MolecularChainNumeric.parse_loop isalpha sd s i atoms bonds
  = (atoms ++ (scan isalpha sd (drop i s)).1,
     bonds ++ (scan isalpha sd (drop i s)).2).
Proof.
  funelim (MolecularChainNumeric.parse_loop isalpha sd s i atoms bonds);
    loop_case sd.
Qed.

Lemma symbolic_parse_scan sd s :
  SymbolicMolecularChain._parse_structure isalpha sd s = scan isalpha sd s.
Proof.
  unfold SymbolicMolecularChain._parse_structure.
  rewrite symbolic_parse_loop_scan, drop_0. by destruct (scan isalpha sd s).
Qed.

Lemma numeric_parse_scan sd s :
  MolecularChainNumeric._parse_structure isalpha sd s = scan isalpha sd s.
Proof.
  unfold MolecularChainNumeric._parse_structure.
  rewrite numeric_parse_loop_scan, drop_0. by destruct (scan isalpha sd s).
Qed.

(** Induction along the steps of the scan. *)
Lemma scan_induction sd (P : list char → Prop) :
  P [] →
  (∀ c rest, isalpha c = false → P rest → P (c :: rest)) →
  (∀ c, isalpha c = true → P [c]) →
  (∀ c b rest, isalpha c = true → in_dict b sd = true →
               P rest → P (c :: b :: rest)) →
  (∀ c b rest, isalpha c = true → in_dict b sd = false →
               P (b :: rest) → P (c :: b :: rest)) →
  ∀ s, P s.
Proof.
  intros Hnil Hskip Hend Hbond Hnobond s.
  cut (P s ∧ ∀ c, P (c :: s)); [tauto|].
  induction s as [|b rest [IH1 IH2]]; split; auto.
  - intros c. destruct (isalpha c) eqn:Ec; auto.
  - intros c. destruct (isalpha c) eqn:Ec; auto.
    destruct (in_dict b sd) eqn:Eb; auto.
Qed.

Lemma scan_bonds_in_dict sd s :
  Forall (λ b, in_dict b sd = true) (scan isalpha sd s).2.
Proof.
  induction s as [|c rest Hc IH|c Hc|c b rest Hc Hb IH|c b rest Hc Hb IH]
    using (scan_induction sd).
  - constructor.
  - by rewrite scan_skip.
  - rewrite scan_atom_end by done. constructor.
  - rewrite scan_atom_bond by done. by constructor.
  - by rewrite scan_atom_no_bond.
Qed.

Lemma scan_atoms_alpha sd s :
  Forall (λ a, isalpha a = true) (scan isalpha sd s).1.
Proof.
  induction s as [|c rest Hc IH|c Hc|c b rest Hc Hb IH|c b rest Hc Hb IH]
    using (scan_induction sd).
  - constructor.
  - by rewrite scan_skip.
  - rewrite scan_atom_end by done. by repeat constructor.
  - rewrite scan_atom_bond by done. by constructor.
  - rewrite scan_atom_no_bond by done. by constructor.
Qed.

Lemma scan_bonds_le sd s :
  length (scan isalpha sd s).2 ≤ length (scan isalpha sd s).1.
Proof.
  induction s as [|c rest Hc IH|c Hc|c b rest Hc Hb IH|c b rest Hc Hb IH]
    using (scan_induction sd).
  - done.
  - by rewrite scan_skip.
  - rewrite scan_atom_end by done. cbn [fst snd length]. lia.
  - rewrite scan_atom_bond by done. cbn [fst snd length]. lia.
  - rewrite scan_atom_no_bond by done. cbn [fst snd length]. lia.
Qed.

Lemma scan_valid sd s :
  valid_structure isalpha sd s = true →
  length (scan isalpha sd s).2 + 1 = length (scan isalpha sd s).1.
Proof.
  induction s as [|c rest Hc IH|c Hc|c b rest Hc Hb IH|c b rest Hc Hb IH]
    using (scan_induction sd); cbn [valid_structure].
  - done.
  - by rewrite Hc.
  - by rewrite scan_atom_end.
  - rewrite Hc, Hb, scan_atom_bond by done. cbn [fst snd length]. intros ?%IH. lia.
  - by rewrite Hc, Hb.
Qed.

Lemma scan_filter sd s :
  (∀ c, isalpha c = true → in_dict c sd = false) →
  (scan isalpha sd s).1 = filter (λ c, isalpha c = true) s.
Proof.
  intros Hkeys.
  induction s as [|c rest Hc IH|c Hc|c b rest Hc Hb IH|c b rest Hc Hb IH]
    using (scan_induction sd).
  - done.
  - rewrite scan_skip, filter_cons_False by (done || congruence). done.
  - rewrite scan_atom_end, filter_cons_True by done. done.
  - rewrite scan_atom_bond, filter_cons_True, filter_cons_False; try done.
    + cbn [fst snd length]. by f_equal.
    + intros Hb'. apply Hkeys in Hb'. congruence.
  - rewrite scan_atom_no_bond, filter_cons_True by done. cbn [fst snd length]. by f_equal.
Qed.

Lemma scan_alphabetic sd s :
  filter (λ c, isalpha c = true) s
  ≡ₚ (scan isalpha sd s).1 ++ filter (λ c, isalpha c = true) (scan isalpha sd s).2.
Proof.
  induction s as [|c rest Hc IH|c Hc|c b rest Hc Hb IH|c b rest Hc Hb IH]
    using (scan_induction sd).
  - done.
  - rewrite scan_skip, filter_cons_False by (done || congruence). done.
  - rewrite scan_atom_end, filter_cons_True by done. done.
  - rewrite scan_atom_bond, filter_cons_True by done. cbn [fst snd app].
    f_equiv. rewrite !(filter_cons _ b). case_decide.
    + rewrite IH. apply Permutation_middle.
    + done.
  - rewrite scan_atom_no_bond, filter_cons_True by done. cbn [fst snd app].
    by f_equiv.
Qed.

Lemma scan_trailing_bond sd s b :
  valid_structure isalpha sd s = true → in_dict b sd = true →
  scan isalpha sd (s ++ [b])
  = ((scan isalpha sd s).1, (scan isalpha sd s).2 ++ [b]).
Proof.
  intros Hs Hb. revert Hs.
  induction s as [|c rest Hc IH|c Hc|c b' rest Hc Hb' IH|c b' rest Hc Hb' IH]
    using (scan_induction sd); cbn [valid_structure].
  - done.
  - by rewrite Hc.
  - intros _. cbn [app]. by rewrite scan_atom_bond, scan_atom_end.
  - rewrite Hc, Hb'. cbn [andb app]. intros Hrest.
    rewrite !scan_atom_bond, IH by done. done.
  - by rewrite Hc, Hb'.
Qed.
End ParserFacts.

(** ** Facts on results, lists and matrices *)

Section MatrixFacts.
Context {char F : Type} `{Countable char} `{Field F}.
Local Abbreviation matrix := (list (list F)).
Local Abbreviation res := (result (exn char)).
Implicit Types (A : matrix) (row m k : list F) (i j : nat).

Lemma Fth : field_theory f0 f1 fadd fmul fsub fopp fdiv finv (@eq F).
Proof. exact field_laws. Qed.
Add Field Ffield : Fth.

Lemma list_get_ok {X} (l : list X) i x :
  l !! i = Some x → list_get (char := char) l i = Ok x.
Proof. unfold list_get. by intros ->. Qed.

Lemma list_get_nth m i :
  i < length m → list_get (char := char) m i = Ok (nth i m 0%fld).
Proof.
  intros Hi. apply list_get_ok.
  destruct (nth_lookup_or_length m i 0%fld) as [->|]; [done|lia].
Qed.


Lemma mat_set_ok A i j v row :
  A !! i = Some row → j < length row →
  mat_set (char := char) A i j v = Ok (<[i := <[j := v]> row]> A).
Proof.
  intros HA Hj. unfold mat_set.
  rewrite (list_get_ok _ _ _ HA). cbn [rbind].
  destruct (lookup_lt_is_Some_2 row j Hj) as [x Hx].
  by rewrite (list_get_ok _ _ _ Hx).
Qed.

Lemma mat_get_ok A i j row x :
  A !! i = Some row → row !! j = Some x → mat_get (char := char) A i j = Ok x.
Proof.
  intros HA Hx. unfold mat_get.
  rewrite (list_get_ok _ _ _ HA). cbn [rbind]. by apply list_get_ok.
Qed.

Ltac fring := unfold ratio; repeat rewrite (Fdiv_def Fth); ring.

(** One iteration of [for i in range(self.N)] on a matrix whose row [i] is
    still zero: row [i] becomes the row of the dynamical matrix. *)
Lemma symbolic_build_row_ok N m k i A :
  i < N → length m = N →
  (0 < i → i - 1 < length k) → (i < N - 1 → i < length k) →
  A !! i = Some (replicate N 0%fld) →
  SymbolicMolecularChain.build_row (char := char) N m k i A
  = Ok (<[i := dynamical_row N m k i]> A).
Proof.
  intros Hi Hm Hk1 Hk2 HA.
  assert (i < length A) as HiA by by eapply lookup_lt_Some.
  unfold SymbolicMolecularChain.build_row.
  set (r0 := replicate N 0%fld) in *.
  assert (length r0 = N) as Hr0 by apply length_replicate.
  destruct (decide (0 < i)) as [Hpos|Hpos], (decide (i < N - 1)) as [Hlast|Hlast].
  all: rewrite ?list_get_nth by lia; cbn [rbind].
  all: repeat first
    [ erewrite mat_set_ok;
        [ cbn [rbind]
        | first [ eassumption | apply list_lookup_insert_eq; rewrite ?length_insert; lia ]
        | rewrite ?length_insert; lia ]
    | erewrite mat_get_ok;
        [ cbn [rbind]
        | first [ eassumption | apply list_lookup_insert_eq; rewrite ?length_insert; lia ]
        | rewrite !list_lookup_insert, ?length_insert;
          repeat case_decide; try lia;
          first [ reflexivity | apply lookup_replicate_2; lia ] ] ].
  all: rewrite ?list_insert_insert_eq.
  4: rewrite <- (list_insert_id A i r0) at 1 by done.
  all: do 2 f_equal; apply list_eq; intros j.
  all: unfold dynamical_row; rewrite list_lookup_fmap.
  all: destruct (decide (j < N)) as [Hj|Hj];
    [ rewrite (lookup_seq_lt 0 N j Hj)
    | rewrite (lookup_seq_ge 0 N j) by lia;
      apply lookup_ge_None_2; rewrite ?length_insert; lia ].
  all: cbn [fmap option_fmap option_map plus]; unfold dynamical_entry.
  all: rewrite ?list_lookup_insert, ?length_insert.
  all: repeat case_decide; try lia.
  all: subst r0; rewrite ?lookup_replicate_2 by lia; f_equal; fring.
Qed.

Lemma numeric_build_row_eq N m k i A :
  MolecularChainNumeric.build_row (char := char) N m k i A
  = SymbolicMolecularChain.build_row N m k i A.
Proof. reflexivity. Qed.


Lemma for_each_app {S} (l1 l2 : list nat) (body : nat → S → res S) (s : S) :
  for_each (l1 ++ l2) body s
  = (s' ← for_each l1 body s ;;; for_each l2 body s').
Proof.
  revert s. induction l1 as [|i l1 IH]; intros s; [done|].
  cbn [app for_each]. destruct (body i s); cbn [rbind]; [apply IH|done].
Qed.

Lemma partial_matrix_0 N m k : partial_matrix N m k 0 = zeros N.
Proof.
  apply list_eq. intros i. unfold partial_matrix, zeros.
  rewrite list_lookup_fmap.
  destruct (decide (i < N)) as [Hi|Hi].
  - rewrite lookup_seq_lt, lookup_replicate_2 by done. done.
  - rewrite lookup_seq_ge by lia. symmetry. apply lookup_ge_None_2.
    rewrite length_replicate. lia.
Qed.

Lemma partial_matrix_full N m k : partial_matrix N m k N = dynamical_matrix N m k.
Proof.
  apply list_eq. intros i. unfold partial_matrix, dynamical_matrix.
  rewrite !list_lookup_fmap.
  destruct (decide (i < N)) as [Hi|Hi].
  - rewrite lookup_seq_lt by done. cbn. by case_decide.
  - by rewrite lookup_seq_ge by lia.
Qed.

Lemma partial_matrix_S N m k t :
  t < N →
  <[t := dynamical_row N m k t]> (partial_matrix N m k t)
  = partial_matrix N m k (S t).
Proof.
  intros Ht. apply list_eq. intros i. unfold partial_matrix.
  rewrite list_lookup_insert, length_fmap, length_seq, !list_lookup_fmap.
  destruct (decide (i < N)) as [Hi|Hi].
  - rewrite lookup_seq_lt by done. cbn.
    repeat case_decide; try lia; try done.
    destruct_and!; by subst.
  - rewrite lookup_seq_ge by lia. case_decide; [lia|done].
Qed.

Lemma symbolic_loop_prefix N m k t :
  t ≤ N → length m = N → (∀ i, i < t → i < N - 1 → i < length k) →
  for_each (seq 0 t) (SymbolicMolecularChain.build_row (char := char) N m k)
    (zeros N)
  = Ok (partial_matrix N m k t).
Proof.
  intros Ht Hm. induction t as [|t IH]; intros Hk.
  - cbn. by rewrite partial_matrix_0.
  - rewrite seq_S, for_each_app, IH by (try lia; intros; apply Hk; lia).
    cbn [rbind for_each plus].
    rewrite symbolic_build_row_ok; try lia.
    + cbn [rbind]. by rewrite partial_matrix_S by lia.
    + intros. assert (t - 1 < length k); [apply Hk|]; lia.
    + intros. apply Hk; lia.
    + unfold partial_matrix. rewrite list_lookup_fmap, lookup_seq_lt by lia.
      cbn. case_decide; [lia|done].
Qed.

Lemma symbolic_loop_ok N m k :
  length m = N → N - 1 ≤ length k →
  for_each (seq 0 N) (SymbolicMolecularChain.build_row (char := char) N m k)
    (zeros N)
  = Ok (dynamical_matrix N m k).
Proof.
  intros Hm Hk. rewrite symbolic_loop_prefix, partial_matrix_full; [done..|].
  intros. lia.
Qed.


(** List comprehensions over a dict. *)
Lemma list_comp_ok (d : gmap char F) (l : list char) (vs : list F) :
  Forall2 (λ a v, d !! a = Some v) l vs →
  list_comp (dict_get d) l = Ok vs.
Proof.
  induction 1 as [|a v l vs Ha _ IH]; [done|].
  cbn [list_comp]. unfold dict_get at 1. rewrite Ha. cbn [rbind].
  by rewrite IH.
Qed.

Lemma first_missing_Some (d : gmap char F) (l : list char) a :
  first_missing d l = Some a →
  list_comp (dict_get d) l = Err (KeyError a).
Proof.
  unfold first_missing. induction l as [|c l IH]; [done|].
  rewrite filter_cons. cbn [list_comp]. unfold dict_get at 1.
  case_decide as Hc.
  - rewrite Hc. by intros [= ->].
  - destruct (d !! c) eqn:E; [|done]. cbn [rbind].
    intros Hl. by rewrite IH.
Qed.

Lemma first_missing_None (d : gmap char F) (l : list char) :
  first_missing d l = None →
  ∃ vs, Forall2 (λ a v, d !! a = Some v) l vs.
Proof.
  unfold first_missing. induction l as [|c l IH]; [by exists []|].
  rewrite filter_cons. case_decide as Hc; [done|].
  destruct (d !! c) as [v|] eqn:E; [|done].
  intros [vs Hvs]%IH. exists (v :: vs). by constructor.
Qed.

Lemma in_dict_values (d : gmap char F) (l : list char) :
  Forall (λ b, in_dict b d = true) l →
  ∃ vs, Forall2 (λ a v, d !! a = Some v) l vs.
Proof.
  induction 1 as [|b l Hb _ [vs IH]]; [by exists []|].
  apply bool_decide_eq_true in Hb as [v Hv].
  exists (v :: vs). by constructor.
Qed.

(** Sums of rows. *)
Lemma vsum_fmap_add {X} (f g : X → F) (l : list X) :
  vsum ((λ x, f x + g x)%fld <$> l) = (vsum (f <$> l) + vsum (g <$> l))%fld.
Proof.
  induction l as [|x l IH]; cbn [fmap list_fmap vsum foldr].
  - ring.
  - fold (vsum ((λ x, f x + g x)%fld <$> l)) (vsum (f <$> l)) (vsum (g <$> l)).
    rewrite IH. ring.
Qed.

Lemma vsum_fmap_ext {X} (f g : X → F) (l : list X) :
  (∀ x, x ∈ l → f x = g x) → vsum (f <$> l) = vsum (g <$> l).
Proof.
  intros Hfg. f_equal. apply list_fmap_ext. intros _ x Hx%list_elem_of_lookup_2.
  by apply Hfg.
Qed.

Lemma vsum_delta (a : nat) (x : F) (s n : nat) :
  vsum ((λ j, if decide (j = a) then x else 0%fld) <$> seq s n)
  = if decide (s ≤ a < s + n) then x else 0%fld.
Proof.
  revert s. induction n as [|n IH]; intros s.
  - cbn. case_decide; [lia|done].
  - cbn [seq fmap list_fmap vsum foldr].
    fold (vsum ((λ j, if decide (j = a) then x else 0%fld) <$> seq (S s) n)).
    rewrite IH. repeat case_decide; try lia; ring.
Qed.

Lemma dynamical_entry_split N m k i j :
  dynamical_entry N m k i j
  = fadd
      (if decide (j = i) then
         fadd (if decide (0 < i) then ratio m k (i - 1) i else f0)
              (if decide (i < N - 1) then ratio m k i i else f0)
       else f0)
      (fadd
         (if decide (j = i - 1) then
            if decide (0 < i) then fopp (ratio m k (i - 1) i) else f0
          else f0)
         (if decide (j = i + 1) then
            if decide (i < N - 1) then fopp (ratio m k i i) else f0
          else f0)).
Proof.
  unfold dynamical_entry. repeat case_decide; try lia; ring.
Qed.

Lemma dynamical_row_sum N m k i :
  i < N → vsum (dynamical_row N m k i) = 0%fld.
Proof.
  intros Hi. unfold dynamical_row.
  rewrite (vsum_fmap_ext _ _ _ (λ j _, dynamical_entry_split N m k i j)).
  rewrite !vsum_fmap_add, !vsum_delta.
  repeat case_decide; try lia; ring.
Qed.


Lemma vsum_zip_ones row n :
  length row ≤ n → vsum (zip_with fmul row (replicate n 1%fld)) = vsum row.
Proof.
  revert n. induction row as [|x row IH]; intros [|n] Hn; cbn in *; try done; [lia|].
  fold (vsum (zip_with fmul row (replicate n 1%fld))) (vsum row).
  rewrite IH by lia. ring.
Qed.

Lemma dynamical_row_length N m k i : length (dynamical_row N m k i) = N.
Proof. unfold dynamical_row. by rewrite length_fmap, length_seq. Qed.

Lemma dynamical_matrix_ones N m k :
  mat_vec (dynamical_matrix N m k) (replicate N 1%fld)
  = fmul 0%fld <$> replicate N 1%fld.
Proof.
  apply list_eq. intros i. unfold mat_vec, dynamical_matrix.
  rewrite !list_lookup_fmap.
  destruct (decide (i < N)) as [Hi|Hi].
  - rewrite lookup_seq_lt, lookup_replicate_2 by done. cbn. f_equal.
    rewrite vsum_zip_ones by by rewrite dynamical_row_length.
    rewrite dynamical_row_sum by done. ring.
  - rewrite lookup_seq_ge by lia. symmetry. cbn.
    rewrite (proj1 (lookup_replicate_None _ _ _)); [done|lia].
Qed.
End MatrixFacts.

(** ** The two constructors and the two matrix builders *)

Section Pipelines.
Context {char F : Type} `{Countable char} `{Field F}.
Variable isalpha : char → bool.
Implicit Types (md sd : gmap char F) (s : list char) (ch : Chain char F).

Lemma symbolic_init_scan s md sd :
  SymbolicMolecularChain.__init__ isalpha s md sd
  = Ok {| structure := s; mass_dict := md; spring_dict := sd;
          atoms := (scan isalpha sd s).1; bonds := (scan isalpha sd s).2;
          N := length (scan isalpha sd s).1 |}.
Proof.
  unfold SymbolicMolecularChain.__init__. rewrite symbolic_parse_scan.
  by destruct (scan isalpha sd s).
Qed.

Lemma numeric_init_eq s md sd :
  MolecularChainNumeric.__init__ isalpha s md sd
  = SymbolicMolecularChain.__init__ isalpha s md sd.
Proof.
  unfold MolecularChainNumeric.__init__, SymbolicMolecularChain.__init__.
  by rewrite symbolic_parse_scan, numeric_parse_scan.
Qed.

Lemma numeric_build_matrix_eq ch :
  MolecularChainNumeric.build_matrix ch = SymbolicMolecularChain.build_matrix ch.
Proof. reflexivity. Qed.

(** What a constructed chain holds. *)
Lemma init_inv s md sd ch :
  SymbolicMolecularChain.__init__ isalpha s md sd = Ok ch →
  mass_dict ch = md ∧ spring_dict ch = sd ∧
  (atoms ch, bonds ch) = scan isalpha sd s ∧ N ch = length (atoms ch).
Proof.
  rewrite symbolic_init_scan. intros [= <-]. cbn.
  by destruct (scan isalpha sd s).
Qed.

Lemma init_bonds_in_dict s md sd ch :
  SymbolicMolecularChain.__init__ isalpha s md sd = Ok ch →
  Forall (λ b, in_dict b (spring_dict ch) = true) (bonds ch).
Proof.
  intros (_ & -> & Hscan & _)%init_inv.
  replace (bonds ch) with (scan isalpha sd s).2 by by rewrite <- Hscan.
  apply scan_bonds_in_dict.
Qed.

(** [build_matrix] on a chain whose atoms all have a mass and whose bonds
    all have a spring constant. *)
Lemma build_matrix_ok ch ms ks :
  N ch = length (atoms ch) →
  Forall2 (λ a v, mass_dict ch !! a = Some v) (atoms ch) ms →
  Forall2 (λ b v, spring_dict ch !! b = Some v) (bonds ch) ks →
  N ch - 1 ≤ length (bonds ch) →
  SymbolicMolecularChain.build_matrix ch = Ok (dynamical_matrix (N ch) ms ks).
Proof.
  intros HN Hms Hks Hlen. unfold SymbolicMolecularChain.build_matrix.
  rewrite (list_comp_ok _ _ _ Hms), (list_comp_ok _ _ _ Hks). cbn [rbind].
  apply symbolic_loop_ok.
  - rewrite HN. symmetry. by eapply Forall2_length.
  - by rewrite <- (Forall2_length _ _ _ Hks).
Qed.


Lemma build_matrix_key_error ch a :
  first_missing (mass_dict ch) (atoms ch) = Some a →
  SymbolicMolecularChain.build_matrix ch = Err (KeyError a).
Proof.
  intros Ha. unfold SymbolicMolecularChain.build_matrix.
  by rewrite (first_missing_Some _ _ _ Ha).
Qed.

(** Reading the dynamical matrix. *)
Lemma dynamical_matrix_get n ms ks i j :
  i < n → j < n →
  mat_get (char := char) (dynamical_matrix n ms ks) i j
  = Ok (dynamical_entry n ms ks i j).
Proof.
  intros Hi Hj. apply mat_get_ok with (dynamical_row n ms ks i).
  - unfold dynamical_matrix. by rewrite list_lookup_fmap, lookup_seq_lt.
  - unfold dynamical_row. by rewrite list_lookup_fmap, lookup_seq_lt.
Qed.

Lemma dynamical_matrix_length n ms ks : length (dynamical_matrix n ms ks) = n.
Proof. unfold dynamical_matrix. by rewrite length_fmap, length_seq. Qed.

Lemma dynamical_matrix_rows n ms ks row :
  row ∈ dynamical_matrix n ms ks →
  ∃ i, i < n ∧ row = dynamical_row n ms ks i.
Proof.
  unfold dynamical_matrix. intros (i & -> & Hi)%list_elem_of_fmap.
  apply elem_of_seq in Hi. exists i. split; [lia|done].
Qed.
End Pipelines.

(** ** Counting the off-diagonal pairs *)

Section Counting.
Context {char F : Type} `{Countable char} `{Field F} `{EqDecision F}.
Implicit Types (m k : list F) (i j : nat).

Lemma Fth_counting : field_theory f0 f1 fadd fmul fsub fopp fdiv finv (@eq F).
Proof. exact field_laws. Qed.
Add Field Ffield_counting : Fth_counting.

Lemma fmul_integral (a b : F) : (a * b)%fld = 0%fld → a = 0%fld ∨ b = 0%fld.
Proof.
  intros Hab. destruct (decide (a = 0%fld)) as [|Ha]; [by left|right].
  transitivity (finv a * (a * b))%fld; [field; done|]. rewrite Hab. ring.
Qed.

Lemma finv_nonzero (a : F) : a ≠ 0%fld → finv a ≠ 0%fld.
Proof.
  intros Ha Hinv. apply (F_1_neq_0 Fth_counting).
  rewrite <- (Finv_l Fth_counting a Ha), Hinv. ring.
Qed.

Lemma ratio_nonzero m k b i :
  nth b k 0%fld ≠ 0%fld → nth i m 0%fld ≠ 0%fld → ratio m k b i ≠ 0%fld.
Proof.
  intros Hk Hm. unfold ratio. rewrite (Fdiv_def Fth_counting).
  intros [?|?]%fmul_integral; [done|]. by apply (finv_nonzero _ Hm).
Qed.

Lemma fopp_nonzero (a : F) : a ≠ 0%fld → fopp a ≠ 0%fld.
Proof.
  intros Ha Hopp. apply Ha. transitivity (fopp (fopp a)); [ring|].
  rewrite Hopp. ring.
Qed.

Lemma nth_nonzero (l : list F) i :
  Forall (λ x, x ≠ 0%fld) l → i < length l → nth i l 0%fld ≠ 0%fld.
Proof.
  intros Hl Hi. destruct (nth_lookup_or_length l i 0%fld) as [Hx|]; [|lia].
  exact (Forall_lookup_1 _ _ _ _ Hl Hx).
Qed.

Lemma nonzero_at_dynamical N m k i j :
  i < N → j < N →
  nonzero_at (dynamical_matrix N m k) i j
  = bool_decide (dynamical_entry N m k i j ≠ 0%fld).
Proof.
  intros Hi Hj. unfold nonzero_at, dynamical_matrix, dynamical_row.
  rewrite list_lookup_fmap, lookup_seq_lt by done. cbn.
  by rewrite list_lookup_fmap, lookup_seq_lt by done.
Qed.

(** With non-zero masses and spring constants, the entries next to the
    diagonal are the only non-zero off-diagonal entries. *)
Lemma dynamical_entry_upper N m k i j :
  length m = N → N - 1 ≤ length k →
  Forall (λ x, x ≠ 0%fld) m → Forall (λ x, x ≠ 0%fld) k →
  i < j → j < N →
  (dynamical_entry N m k i j ≠ 0%fld ↔ j = S i) ∧
  (dynamical_entry N m k j i ≠ 0%fld ↔ j = S i).
Proof.
  intros Hm Hk Hm0 Hk0 Hij Hj. unfold dynamical_entry.
  repeat case_decide; destruct_and?; try lia.
  all: split; (split; [try lia; try done|intros ->]).
  all: try (apply fopp_nonzero, ratio_nonzero; apply nth_nonzero; (done || lia)).
  all: try lia.
Qed.

Lemma filter_none {X} (P : X → Prop) `{∀ x, Decision (P x)} (l : list X) :
  Forall (λ x, ¬ P x) l → filter P l = [].
Proof.
  induction 1 as [|x l Hx _ IH]; [done|]. by rewrite filter_cons_False.
Qed.

Lemma offdiag_row N m k i :
  length m = N → N - 1 ≤ length k →
  Forall (λ x, x ≠ 0%fld) m → Forall (λ x, x ≠ 0%fld) k →
  i < N →
  filter (λ p, nonzero_at (dynamical_matrix N m k) p.1 p.2
               || nonzero_at (dynamical_matrix N m k) p.2 p.1)
    ((λ j, (i, j)) <$> seq (S i) (N - S i))
  = if decide (S i < N) then [(i, S i)] else [].
Proof.
  intros Hm Hk Hm0 Hk0 Hi.
  case_decide as Hlast; [|by replace (N - S i) with 0 by lia].
  replace (N - S i) with (S (N - S (S i))) by lia.
  cbn [seq fmap list_fmap].
  rewrite filter_cons_True.
  - f_equal. apply filter_none, Forall_fmap, Forall_forall.
    intros j [??]%elem_of_seq. cbn.
    rewrite !nonzero_at_dynamical by lia.
    destruct (dynamical_entry_upper N m k i j) as [H1' H2']; try done; try lia.
    rewrite orb_True, !bool_decide_spec, H1', H2'. lia.
  - cbn. rewrite !nonzero_at_dynamical by lia.
    destruct (dynamical_entry_upper N m k i (S i)) as [H1' H2']; try done; try lia.
    rewrite orb_True, !bool_decide_spec. left. by apply H1'.
Qed.

Lemma offdiag_from N m k s n :
  length m = N → N - 1 ≤ length k →
  Forall (λ x, x ≠ 0%fld) m → Forall (λ x, x ≠ 0%fld) k →
  s + n = N →
  filter (λ p, nonzero_at (dynamical_matrix N m k) p.1 p.2
               || nonzero_at (dynamical_matrix N m k) p.2 p.1)
    (i ← seq s n; (λ j, (i, j)) <$> seq (S i) (N - S i))
  = (λ i, (i, S i)) <$> seq s (n - 1).
Proof.
  intros Hm Hk Hm0 Hk0. revert s. induction n as [|n IH]; intros s Hs; [done|].
  cbn [seq]. rewrite bind_cons, filter_app, offdiag_row, IH by (done || lia).
  case_decide.
  - replace (S n - 1) with (S (n - 1)) by lia. done.
  - by replace n with 0 by lia.
Qed.

Lemma offdiag_dynamical N m k :
  length m = N → N - 1 ≤ length k →
  Forall (λ x, x ≠ 0%fld) m → Forall (λ x, x ≠ 0%fld) k →
  offdiag_nonzero_pairs N (dynamical_matrix N m k)
  = (λ i, (i, S i)) <$> seq 0 (N - 1).
Proof. intros. by apply offdiag_from. Qed.
End Counting.

(** ** The claims of the specification *)

Section Claims.
Context {char F : Type} `{Countable char} `{Field F} `{EqDecision F}.
Variable isalpha : char → bool.
Implicit Types (md sd : gmap char F) (s : list char) (ch : Chain char F).

(** C1. For a chain built from a structure string whose atoms all have a
    mass, whose bonds all have a spring constant and that has at least the
    [N - 1] bonds that join its [N] atoms, [build_matrix] of both classes
    returns the N-by-N matrix [A] with
    [A[i,i] = (k_{i-1}/m_i if i > 0) + (k_i/m_i if i < N-1)],
    [A[i,i-1] = -k_{i-1}/m_i] for [i > 0], [A[i,i+1] = -k_i/m_i] for
    [i < N-1], and zero everywhere else. *)
Theorem build_matrix_entries s md sd ch (ms ks : list F) :
  SymbolicMolecularChain.__init__ isalpha s md sd = Ok ch →
  Forall2 (λ a v, md !! a = Some v) (atoms ch) ms →
  Forall2 (λ b v, sd !! b = Some v) (bonds ch) ks →
  N ch - 1 ≤ length (bonds ch) →
  MolecularChainNumeric.__init__ isalpha s md sd = Ok ch ∧
  ∃ A : list (list F),
    SymbolicMolecularChain.build_matrix ch = Ok A ∧
    MolecularChainNumeric.build_matrix ch = Ok A ∧
    length A = N ch ∧ Forall (λ row, length row = N ch) A ∧
    (∀ i, i < N ch →
       mat_get (char := char) A i i
       = Ok (fadd (if decide (0 < i)
                   then fdiv (nth (i - 1) ks f0) (nth i ms f0) else f0)
                  (if decide (i < N ch - 1)
                   then fdiv (nth i ks f0) (nth i ms f0) else f0))) ∧
    (∀ i, 0 < i → i < N ch →
       mat_get (char := char) A i (i - 1)
       = Ok (fopp (fdiv (nth (i - 1) ks f0) (nth i ms f0)))) ∧
    (∀ i, i < N ch - 1 →
       mat_get (char := char) A i (i + 1)
       = Ok (fopp (fdiv (nth i ks f0) (nth i ms f0)))) ∧
    (∀ i j, i < N ch → j < N ch → j ≠ i → j + 1 ≠ i → j ≠ i + 1 →
       mat_get (char := char) A i j = Ok f0).
Proof.
  intros Hinit Hms Hks Hlen.
  destruct (init_inv isalpha _ _ _ _ Hinit) as (Hmd & Hsd & _ & HN).
  split; [by rewrite numeric_init_eq|].
  exists (dynamical_matrix (N ch) ms ks).
  assert (SymbolicMolecularChain.build_matrix ch
          = Ok (dynamical_matrix (N ch) ms ks)) as Hbuild.
  { apply build_matrix_ok; [done| | |done]; by subst. }
  split; [done|]. split; [by rewrite numeric_build_matrix_eq|].
  split; [apply dynamical_matrix_length|].
  split.
  { apply Forall_forall. intros row (i & _ & ->)%dynamical_matrix_rows.
    apply dynamical_row_length. }
  repeat split.
  - intros i Hi. rewrite dynamical_matrix_get by done.
    unfold dynamical_entry, ratio. by rewrite decide_True.
  - intros i Hpos Hi. rewrite dynamical_matrix_get by lia.
    unfold dynamical_entry, ratio.
    rewrite decide_False, decide_True by lia. done.
  - intros i Hi. rewrite dynamical_matrix_get by lia.
    unfold dynamical_entry, ratio.
    rewrite decide_False, decide_False, decide_True by lia. done.
  - intros i j Hi Hj Hne1 Hne2 Hne3. rewrite dynamical_matrix_get by lia.
    unfold dynamical_entry. by rewrite !decide_False by lia.
Qed.

(** C2. For a chain with exactly [N - 1] parsed bonds (and a mass for
    every atom), every row of the matrix that [build_matrix] returns sums
    to zero, so [A] maps the all-ones vector to zero times itself; and when
    all masses and spring constants are non-zero, the off-diagonal pairs of
    entries that are not zero are exactly the [N - 1] pairs
    [(i, i+1)], [(i+1, i)]. *)
Theorem build_matrix_rows_sum_to_zero s md sd ch (ms ks : list F) :
  SymbolicMolecularChain.__init__ isalpha s md sd = Ok ch →
  Forall2 (λ a v, md !! a = Some v) (atoms ch) ms →
  Forall2 (λ b v, sd !! b = Some v) (bonds ch) ks →
  length (bonds ch) + 1 = N ch →
  ∃ A : list (list F),
    SymbolicMolecularChain.build_matrix ch = Ok A ∧
    MolecularChainNumeric.build_matrix ch = Ok A ∧
    length A = N ch ∧
    Forall (λ row, vsum row = f0) A ∧
    mat_vec A (replicate (N ch) f1) = fmul f0 <$> replicate (N ch) f1 ∧
    (Forall (λ x, x ≠ f0) ms → Forall (λ x, x ≠ f0) ks →
     offdiag_nonzero_pairs (N ch) A = (λ i, (i, S i)) <$> seq 0 (N ch - 1) ∧
     length (offdiag_nonzero_pairs (N ch) A) = N ch - 1).
Proof.
  intros Hinit Hms Hks Hlen.
  destruct (init_inv isalpha _ _ _ _ Hinit) as (Hmd & Hsd & _ & HN).
  exists (dynamical_matrix (N ch) ms ks).
  assert (SymbolicMolecularChain.build_matrix ch
          = Ok (dynamical_matrix (N ch) ms ks)) as Hbuild.
  { apply build_matrix_ok; [done| | |lia]; by subst. }
  split; [done|]. split; [by rewrite numeric_build_matrix_eq|].
  split; [apply dynamical_matrix_length|].
  split.
  { apply Forall_forall. intros row (i & Hi & ->)%dynamical_matrix_rows.
    by apply dynamical_row_sum. }
  split; [apply dynamical_matrix_ones|].
  intros Hm0 Hk0.
  assert (offdiag_nonzero_pairs (N ch) (dynamical_matrix (N ch) ms ks)
          = (λ i, (i, S i)) <$> seq 0 (N ch - 1)) as Hpairs.
  { apply offdiag_dynamical; [| |done..].
    - rewrite HN. symmetry. by eapply Forall2_length.
    - rewrite <- (Forall2_length _ _ _ Hks). lia. }
  split; [done|]. by rewrite Hpairs, length_fmap, length_seq.
Qed.
(** C4. [_parse_structure] (in both classes) is the left-to-right scan:
    at the end of the string it stops; an alphabetic character becomes a
    new atom, and the character after it, when there is one and it is a
    key of [spring_dict], becomes the bond after that atom and the scan
    resumes two positions on, otherwise one position on; a character that
    is not alphabetic and is not consumed as a bond is skipped. *)
Theorem parse_structure_is_scan sd s :
  SymbolicMolecularChain._parse_structure isalpha sd s = scan isalpha sd s ∧
  MolecularChainNumeric._parse_structure isalpha sd s = scan isalpha sd s ∧
  scan isalpha sd [] = ([], []) ∧
  (∀ c b rest, isalpha c = true → is_Some (sd !! b) →
     scan isalpha sd (c :: b :: rest)
     = (c :: (scan isalpha sd rest).1, b :: (scan isalpha sd rest).2)) ∧
  (∀ c b rest, isalpha c = true → sd !! b = None →
     scan isalpha sd (c :: b :: rest)
     = (c :: (scan isalpha sd (b :: rest)).1,
        (scan isalpha sd (b :: rest)).2)) ∧
  (∀ c, isalpha c = true → scan isalpha sd [c] = ([c], [])) ∧
  (∀ c rest, isalpha c = false →
     scan isalpha sd (c :: rest) = scan isalpha sd rest).
Proof.
  split; [apply symbolic_parse_scan|].
  split; [apply numeric_parse_scan|].
  split; [done|]. repeat split.
  - intros c b rest Hc Hb. apply scan_atom_bond; [done|].
    by apply bool_decide_eq_true.
  - intros c b rest Hc Hb. apply scan_atom_no_bond; [done|].
    apply bool_decide_eq_false. rewrite Hb. by intros [? ?].
  - intros c Hc. by apply scan_atom_end.
  - intros c rest Hc. by apply scan_skip.
Qed.

(** C6. For a structure string in which atoms and recognised bond symbols
    alternate, starting and ending with an atom, the parser of either
    class returns one bond less than atoms. *)
Theorem valid_structure_is_path sd s :
  valid_structure isalpha sd s = true →
  (let '(atoms, bonds) := SymbolicMolecularChain._parse_structure isalpha sd s in
   length bonds + 1 = length atoms ∧ length bonds = length atoms - 1) ∧
  (let '(atoms, bonds) := MolecularChainNumeric._parse_structure isalpha sd s in
   length bonds + 1 = length atoms ∧ length bonds = length atoms - 1).
Proof.
  intros Hs%scan_valid.
  rewrite symbolic_parse_scan, numeric_parse_scan.
  destruct (scan isalpha sd s) as [atoms bonds]. cbn [fst snd] in Hs. lia.
Qed.


(** C8, as the code has it.  Constructing a chain raises nothing, whatever
    the structure string: the constructor of either class returns the
    chain that holds the atom and bond lists of the scan.  The empty
    string gives the empty chain, for which [build_matrix] returns the
    empty matrix; a leading character that is not alphabetic is skipped; a
    recognised bond symbol after the last atom of a well-formed string is
    appended to the bonds. *)
Theorem init_never_raises s md sd :
  (∃ ch,
     SymbolicMolecularChain.__init__ isalpha s md sd = Ok ch ∧
     MolecularChainNumeric.__init__ isalpha s md sd = Ok ch ∧
     structure ch = s ∧ mass_dict ch = md ∧ spring_dict ch = sd ∧
     (atoms ch, bonds ch) = scan isalpha sd s ∧ N ch = length (atoms ch)) ∧
  (∃ ch,
     SymbolicMolecularChain.__init__ isalpha [] md sd = Ok ch ∧
     atoms ch = [] ∧ bonds ch = [] ∧ N ch = 0 ∧
     SymbolicMolecularChain.build_matrix ch = Ok []) ∧
  (∀ b, isalpha b = false →
     SymbolicMolecularChain.__init__ isalpha (b :: s) md sd
     = (ch ← SymbolicMolecularChain.__init__ isalpha s md sd ;;;
        Ok {| structure := b :: s; mass_dict := md; spring_dict := sd;
              atoms := atoms ch; bonds := bonds ch; N := N ch |})) ∧
  (∀ b, valid_structure isalpha sd s = true → is_Some (sd !! b) →
     scan isalpha sd (s ++ [b])
     = ((scan isalpha sd s).1, (scan isalpha sd s).2 ++ [b])).
Proof.
  repeat split.
  - eexists. split; [apply symbolic_init_scan|].
    split; [by rewrite numeric_init_eq, symbolic_init_scan|].
    cbn. by destruct (scan isalpha sd s).
  - eexists. split; [apply symbolic_init_scan|]. done.
  - intros b Hb. rewrite !symbolic_init_scan. cbn [rbind atoms bonds N].
    by rewrite scan_skip.
  - intros b Hs Hb. apply scan_trailing_bond; [done|].
    by apply bool_decide_eq_true.
Qed.

(** C10, as the code has it.  The parser of either class never reads the
    mass mapping.  Every atom is one alphabetic character; the alphabetic
    characters of the structure string are the atoms together with the
    alphabetic characters that were consumed as bonds; so when no alphabetic
    character is a key of the spring mapping, the atoms are the alphabetic
    characters of the structure string, one atom per character and in
    order. *)
Theorem atoms_are_alphabetic_characters s md sd :
  ∃ ch,
    SymbolicMolecularChain.__init__ isalpha s md sd = Ok ch ∧
    MolecularChainNumeric.__init__ isalpha s md sd = Ok ch ∧
    (atoms ch, bonds ch) = SymbolicMolecularChain._parse_structure isalpha sd s ∧
    Forall (λ a, isalpha a = true) (atoms ch) ∧
    filter (λ c, isalpha c = true) s
    ≡ₚ atoms ch ++ filter (λ c, isalpha c = true) (bonds ch) ∧
    ((∀ c, isalpha c = true → sd !! c = None) →
     atoms ch = filter (λ c, isalpha c = true) s ∧
     N ch = length (filter (λ c, isalpha c = true) s)).
Proof.
  eexists. split; [apply symbolic_init_scan|].
  split; [by rewrite numeric_init_eq, symbolic_init_scan|].
  cbn [atoms bonds N].
  split; [rewrite symbolic_parse_scan; by destruct (scan isalpha sd s)|].
  split; [apply scan_atoms_alpha|].
  split; [apply scan_alphabetic|].
  intros Hkeys. rewrite scan_filter; [done|].
  intros c Hc. apply bool_decide_eq_false. rewrite (Hkeys c Hc).
  by intros [? ?].
Qed.
End Claims.

(** ** Chains of two and three atoms *)

Section SmallChains.
Context {F : Type} `{Field F} `{EqDecision F}.

Lemma Fth_small : field_theory f0 f1 fadd fmul fsub fopp fdiv finv (@eq F).
Proof. exact field_laws. Qed.
Add Field Ffield_small : Fth_small.

(** Two atoms: the eigenvalues are [0] and [k/m0 + k/m1]
    (for "C=C": [0] and [2k/M]). *)
Lemma diatomic_eigenvalues (m0 m1 k lambda : F) :
  SymbolicEigenSolver.eigenvalue (dynamical_matrix 2 [m0; m1] [k]) lambda
  ↔ lambda = f0 ∨ lambda = fadd (fdiv k m0) (fdiv k m1).
Proof.
  unfold SymbolicEigenSolver.eigenvalue.
  set (a := fdiv k m0). set (b := fdiv k m1).
  assert (SymbolicEigenSolver.characteristic_polynomial
            (dynamical_matrix 2 [m0; m1] [k]) lambda
          = fmul lambda (fsub lambda (fadd a b))) as ->.
  { subst a b. cbv -[fadd fmul fsub fopp fdiv finv f0 f1]. ring. }
  split.
  - intros [?|Hl]%fmul_integral; [by left|right].
    transitivity (fadd (fsub lambda (fadd a b)) (fadd a b)); [ring|].
    rewrite Hl. ring.
  - intros [->| ->]; ring.
Qed.
(** Three atoms with equal ends ("O=C=O"). *)
Lemma triatomic_polynomial (m M k lambda : F) :
  SymbolicEigenSolver.characteristic_polynomial
    (dynamical_matrix 3 [m; M; m] [k; k]) lambda
  = fmul (fsub (fdiv k m) lambda)
      (fmul lambda
         (fsub lambda (fadd (fdiv k m) (fmul (fadd f1 f1) (fdiv k M))))).
Proof. cbv -[fadd fmul fsub fopp fdiv finv f0 f1]. ring. Qed.

Lemma co2_scan (k : F) :
  scan Latin1.isalpha (Examples.springs k) (Latin1.str "O=C=O")
  = (["O"; "C"; "O"]%char, ["="; "="]%char).
Proof. vm_compute. reflexivity. Qed.

(** C5. Parsing "O=C=O" with masses [{O: m, C: M}] and springs [{'=': k}]
    gives the atoms [O, C, O] and the bonds [=, =]; the roots of the
    characteristic polynomial of the matrix built from them are exactly
    [0], [k/m] and [k/m * (1 + 2m/M)].  The masses are not zero. *)
Theorem co2_round_trip (m M k : F) :
  m ≠ f0 → M ≠ f0 →
  ∃ ch A,
    SymbolicMolecularChain.__init__ Latin1.isalpha (Latin1.str "O=C=O")
      (Examples.masses m M) (Examples.springs k) = Ok ch ∧
    atoms ch = ["O"; "C"; "O"]%char ∧ bonds ch = ["="; "="]%char ∧
    SymbolicMolecularChain.build_matrix ch = Ok A ∧
    ∀ lambda,
      SymbolicEigenSolver.eigenvalue A lambda
      ↔ lambda = f0 ∨ lambda = fdiv k m
        ∨ lambda = fmul (fdiv k m)
                     (fadd f1 (fdiv (fmul (fadd f1 f1) m) M)).
Proof.
  intros Hm HM. eexists. exists (dynamical_matrix 3 [m; M; m] [k; k]).
  split; [apply symbolic_init_scan|]. rewrite co2_scan. cbn [atoms bonds fst snd].
  split; [done|]. split; [done|]. split.
  { apply (build_matrix_ok (char := ascii)); cbn [atoms bonds N mass_dict spring_dict];
      [done| | |done]; repeat constructor. }
  intros lambda. unfold SymbolicEigenSolver.eigenvalue.
  rewrite triatomic_polynomial.
  assert (fmul (fdiv k m) (fadd f1 (fdiv (fmul (fadd f1 f1) m) M))
          = fadd (fdiv k m) (fmul (fadd f1 f1) (fdiv k M))) as -> by (by field).
  split.
  - intros [Hl|[Hl|Hl]%fmul_integral]%fmul_integral.
    + right; left. transitivity (fsub (fdiv k m) (fsub (fdiv k m) lambda)); [ring|].
      rewrite Hl. ring.
    + by left.
    + right; right.
      set (r := fadd (fdiv k m) (fmul (fadd f1 f1) (fdiv k M))) in *.
      transitivity (fadd (fsub lambda r) r); [ring|]. rewrite Hl. ring.
  - intros [->|[->| ->]]; ring.
Qed.
End SmallChains.

(** ** The claims on the chains of the notebook *)

Section Notebook.
Import Examples.
Local Open Scope char_scope.

Lemma Fth_qc : field_theory f0 f1 fadd fmul fsub fopp fdiv finv (@eq Qc).
Proof. exact field_laws. Qed.
Add Field Ffield_qc : Fth_qc.

Lemma qc_nonzero (z : Z) : z ≠ 0%Z → qc z ≠ f0.
Proof.
  intros Hz Heq. apply (f_equal this) in Heq. apply Hz.
  unfold qc in Heq. cbn in Heq.
  assert (Qred (inject_Z z) = inject_Z z) as Hred.
  { apply Qred_identity. cbn. apply Z.gcd_1_r. }
  rewrite Hred in Heq. by injection Heq.
Qed.

Lemma o_c_scan (k : Qc) :
  scan Latin1.isalpha (springs k) (Latin1.str "O=C") = (["O"; "C"], ["="]).
Proof. vm_compute. reflexivity. Qed.

(** A chain of the notebook, ["O=C=O"], and its matrix. *)
Lemma build_matrix_entries_witness :
  ∃ ch A,
    SymbolicMolecularChain.__init__ Latin1.isalpha (Latin1.str "O=C=O")
      (masses (qc 16) (qc 12)) (springs (qc 3)) = Ok ch ∧
    N ch = 3 ∧
    MolecularChainNumeric.build_matrix ch = Ok A ∧
    mat_get (char := ascii) A 1 0 = Ok (fopp (fdiv (qc 3) (qc 12))).
Proof.
  pose proof (symbolic_init_scan Latin1.isalpha (Latin1.str "O=C=O")
                (masses (qc 16) (qc 12)) (springs (qc 3))) as Hinit.
  rewrite co2_scan in Hinit. cbn [fst snd length] in Hinit.
  destruct (build_matrix_entries Latin1.isalpha _ _ _ _
              [qc 16; qc 12; qc 16] [qc 3; qc 3] Hinit)
    as (_ & A & _ & HA & _ & _ & _ & Hsub & _).
  - repeat constructor.
  - repeat constructor.
  - cbn. lia.
  - eexists. exists A. split; [exact Hinit|]. split; [reflexivity|].
    split; [exact HA|]. apply (Hsub 1); cbn; lia.
Defined.

Lemma build_matrix_rows_sum_to_zero_witness :
  ∃ ch A,
    SymbolicMolecularChain.__init__ Latin1.isalpha (Latin1.str "O=C=O")
      (masses (qc 16) (qc 12)) (springs (qc 3)) = Ok ch ∧
    length (bonds ch) + 1 = N ch ∧
    SymbolicMolecularChain.build_matrix ch = Ok A ∧
    Forall (λ row, vsum row = f0) A ∧
    length (offdiag_nonzero_pairs 3 A) = 2.
Proof.
  pose proof (symbolic_init_scan Latin1.isalpha (Latin1.str "O=C=O")
                (masses (qc 16) (qc 12)) (springs (qc 3))) as Hinit.
  rewrite co2_scan in Hinit. cbn [fst snd length] in Hinit.
  destruct (build_matrix_rows_sum_to_zero Latin1.isalpha _ _ _ _
              [qc 16; qc 12; qc 16] [qc 3; qc 3] Hinit)
    as (A & HA & _ & _ & Hrows & _ & Hpairs).
  - repeat constructor.
  - repeat constructor.
  - reflexivity.
  - eexists. exists A. split; [exact Hinit|]. split; [reflexivity|].
    split; [exact HA|]. split; [exact Hrows|].
    apply Hpairs; repeat constructor; by apply qc_nonzero.
Defined.

Lemma valid_structure_is_path_witness :
  valid_structure Latin1.isalpha (springs (qc 3)) (Latin1.str "O=C=O") = true ∧
  (let '(atoms, bonds) :=
     SymbolicMolecularChain._parse_structure Latin1.isalpha (springs (qc 3))
       (Latin1.str "O=C=O") in
   length bonds + 1 = length atoms ∧ length bonds = length atoms - 1).
Proof.
  split; [reflexivity|].
  apply (valid_structure_is_path Latin1.isalpha (springs (qc 3))
           (Latin1.str "O=C=O")).
  reflexivity.
Defined.

Lemma springs_no_letter (k : Qc) c :
  Latin1.isalpha c = true → springs k !! c = None.
Proof.
  intros Hc. apply lookup_singleton_ne. intros <-. discriminate Hc.
Defined.

Lemma atoms_are_alphabetic_characters_witness :
  ∃ ch,
    SymbolicMolecularChain.__init__ Latin1.isalpha (Latin1.str "Cl") ∅
      (springs (qc 3)) = Ok ch ∧
    atoms ch = ["C"; "l"].
Proof.
  destruct (atoms_are_alphabetic_characters Latin1.isalpha (Latin1.str "Cl")
              ∅ (springs (qc 3)))
    as (ch & Hinit & _ & _ & _ & _ & Hatoms).
  exists ch. split; [exact Hinit|].
  destruct (Hatoms (springs_no_letter (qc 3))) as [-> _]. reflexivity.
Defined.


Lemma init_never_raises_witness :
  ∃ ch,
    SymbolicMolecularChain.__init__ Latin1.isalpha (Latin1.str "=C")
      (masses (qc 16) (qc 12)) (springs (qc 3)) = Ok ch ∧
    atoms ch = ["C"] ∧ bonds ch = [].
Proof.
  destruct (init_never_raises Latin1.isalpha (Latin1.str "=C")
              (masses (qc 16) (qc 12)) (springs (qc 3)))
    as ((ch & Hinit & _ & _ & _ & _ & Hscan & _) & _).
  exists ch. split; [exact Hinit|].
  injection Hscan as -> ->. split; reflexivity.
Defined.

Lemma co2_round_trip_witness :
  qc 16 ≠ f0 ∧ qc 12 ≠ f0 ∧
  ∃ ch A,
    SymbolicMolecularChain.__init__ Latin1.isalpha (Latin1.str "O=C=O")
      (masses (qc 16) (qc 12)) (springs (qc 3)) = Ok ch ∧
    SymbolicMolecularChain.build_matrix ch = Ok A ∧
    SymbolicEigenSolver.eigenvalue A (fdiv (qc 3) (qc 16)).
Proof.
  assert (qc 16 ≠ f0) as H16 by (by apply qc_nonzero).
  assert (qc 12 ≠ f0) as H12 by (by apply qc_nonzero).
  split; [exact H16|]. split; [exact H12|].
  destruct (co2_round_trip (qc 16) (qc 12) (qc 3) H16 H12)
    as (ch & A & Hinit & _ & _ & HA & Heig).
  exists ch, A. split; [exact Hinit|]. split; [exact HA|].
  apply Heig. right. left. reflexivity.
Defined.

(** C9, at the chain ["O=C"] with masses 6 and 1 and spring constant 6:
    the two classes build the same chain and the same matrix
    [[1, -1], [-6, 6]]; the roots of its characteristic polynomial are
    exactly 0 and 7; the matrix is not symmetric. *)
Theorem pipelines_at_o_c :
  ∃ ch A,
    SymbolicMolecularChain.__init__ Latin1.isalpha (Latin1.str "O=C")
      (masses (qc 6) (qc 1)) (springs (qc 6)) = Ok ch ∧
    MolecularChainNumeric.__init__ Latin1.isalpha (Latin1.str "O=C")
      (masses (qc 6) (qc 1)) (springs (qc 6)) = Ok ch ∧
    SymbolicMolecularChain.build_matrix ch = Ok A ∧
    MolecularChainNumeric.build_matrix ch = Ok A ∧
    values A = [[1; -1]; [-6; 6]]%Q ∧
    ¬ symmetric (char := ascii) (N ch) A ∧
    ∀ lambda : Qc,
      SymbolicEigenSolver.eigenvalue A lambda ↔ lambda = qc 0 ∨ lambda = qc 7.
Proof.
  eexists. exists (dynamical_matrix 2 [qc 6; qc 1] [qc 6]).
  split; [apply symbolic_init_scan|].
  split; [rewrite numeric_init_eq; apply symbolic_init_scan|].
  rewrite o_c_scan. cbn [fst snd length].
  assert (SymbolicMolecularChain.build_matrix
            {| structure := Latin1.str "O=C"; mass_dict := masses (qc 6) (qc 1);
               spring_dict := springs (qc 6); atoms := ["O"; "C"];
               bonds := ["="]; N := 2 |}
          = Ok (dynamical_matrix 2 [qc 6; qc 1] [qc 6])) as Hbuild.
  { apply (build_matrix_ok (char := ascii));
      cbn [atoms bonds N mass_dict spring_dict]; [done| | |done];
      repeat constructor. }
  split; [exact Hbuild|]. split; [exact Hbuild|].
  split; [vm_compute; reflexivity|].
  split.
  - intros Hsym. specialize (Hsym 0 1). cbn [N] in Hsym.
    assert (0 < 2) as H0 by lia. assert (1 < 2) as H1 by lia.
    specialize (Hsym H0 H1). vm_compute in Hsym. discriminate Hsym.
  - intros lambda. rewrite diatomic_eigenvalues.
    assert (fadd (fdiv (qc 6) (qc 6)) (fdiv (qc 6) (qc 1)) = qc 7) as ->
      by (apply Qc_is_canon; reflexivity).
    assert (f0 = qc 0) as -> by (apply Qc_is_canon; reflexivity).
    reflexivity.
Qed.

(** The matrix that [np.linalg.eigh] decomposes for that chain,
    [[1, -6], [-6, 6]], has the characteristic roots -3 and 10. *)
Lemma eigh_operand_at_o_c :
  values (NumericEigenSolver.lower_triangle
            (dynamical_matrix 2 [qc 6; qc 1] [qc 6]))
  = [[1; -6]; [-6; 6]]%Q ∧
  ∀ lambda : Qc,
    SymbolicEigenSolver.eigenvalue
      (NumericEigenSolver.lower_triangle
         (dynamical_matrix 2 [qc 6; qc 1] [qc 6])) lambda
    ↔ lambda = qc (-3) ∨ lambda = qc 10.
Proof.
  split; [vm_compute; reflexivity|].
  intros lambda. unfold SymbolicEigenSolver.eigenvalue.
  assert (SymbolicEigenSolver.characteristic_polynomial
            (NumericEigenSolver.lower_triangle
               (dynamical_matrix 2 [qc 6; qc 1] [qc 6])) lambda
          = fmul (fsub lambda (qc (-3))) (fsub lambda (qc 10))) as ->.
  { destruct lambda as [q Hq]. apply Qc_is_canon.
    cbv -[Qred Qplus Qmult Qminus Qopp Qdiv Qinv Qeq].
    rewrite !Qred_correct. field. }
  split.
  - intros [Hl|Hl]%fmul_integral; [left|right].
    + transitivity (fadd (fsub lambda (qc (-3))) (qc (-3))); [ring|].
      rewrite Hl. ring.
    + transitivity (fadd (fsub lambda (qc 10)) (qc 10)); [ring|].
      rewrite Hl. ring.
  - intros [->| ->]; ring.
Qed.


(** C8 fails: the empty string, a string that starts with a bond symbol and
    a string that ends with one are all accepted. *)
Lemma malformed_structures_are_accepted :
  ¬ raises (SymbolicMolecularChain.__init__ Latin1.isalpha (Latin1.str "")
              (masses (qc 16) (qc 12)) (springs (qc 3))) ∧
  ¬ raises (SymbolicMolecularChain.__init__ Latin1.isalpha (Latin1.str "=C")
              (masses (qc 16) (qc 12)) (springs (qc 3))) ∧
  ¬ raises (SymbolicMolecularChain.__init__ Latin1.isalpha (Latin1.str "C=")
              (masses (qc 16) (qc 12)) (springs (qc 3))) ∧
  (ch ← SymbolicMolecularChain.__init__ Latin1.isalpha (Latin1.str "")
          (masses (qc 16) (qc 12)) (springs (qc 3)) ;;;
   SymbolicMolecularChain.build_matrix ch) = Ok [].
Proof.
  do 3 (split; [intros [e He]; rewrite symbolic_init_scan in He; discriminate He|]).
  vm_compute. reflexivity.
Qed.

(** C10 fails: with the letter [l] as a bond symbol, ["Cl"] is one atom and
    one bond, not two atoms. *)
Lemma letter_consumed_as_bond :
  SymbolicMolecularChain._parse_structure Latin1.isalpha
    ({[ "l" := qc 1 ]} : gmap ascii Qc) (Latin1.str "Cl") = (["C"], ["l"]) ∧
  (SymbolicMolecularChain._parse_structure Latin1.isalpha
     ({[ "l" := qc 1 ]} : gmap ascii Qc) (Latin1.str "Cl")).1
  ≠ filter (λ c, Latin1.isalpha c = true) (Latin1.str "Cl").
Proof.
  split; [vm_compute; reflexivity|].
  vm_compute. discriminate.
Qed.
End Notebook.

(** ** More on the parser *)

Section ParserCoverage.
Context {char F : Type} `{Countable char} `{FieldOps F}.
Variable isalpha : char → bool.
Implicit Types (sd : gmap char F) (s : list char).

Lemma scan_lengths sd s :
  length (scan isalpha sd s).1 + length (scan isalpha sd s).2 ≤ length s.
Proof.
  induction s as [|c rest Hc IH|c Hc|c b rest Hc Hb IH|c b rest Hc Hb IH]
    using (scan_induction isalpha sd).
  - done.
  - rewrite scan_skip by done. cbn [length]. lia.
  - rewrite scan_atom_end by done. cbn [fst snd length]. lia.
  - rewrite scan_atom_bond by done. cbn [fst snd length]. lia.
  - rewrite scan_atom_no_bond by done. cbn [fst snd length] in *. lia.
Qed.

(** X1. Whatever the structure string, the parser of either class returns
    at most one bond per atom, and atoms and bonds together are at most as
    many as the characters of the string. *)
Theorem parse_structure_lengths sd s :
  (let '(atoms, bonds) := SymbolicMolecularChain._parse_structure isalpha sd s in
   length bonds ≤ length atoms ∧ length atoms + length bonds ≤ length s) ∧
  (let '(atoms, bonds) := MolecularChainNumeric._parse_structure isalpha sd s in
   length bonds ≤ length atoms ∧ length atoms + length bonds ≤ length s).
Proof.
  rewrite symbolic_parse_scan, numeric_parse_scan.
  pose proof (scan_bonds_le isalpha sd s). pose proof (scan_lengths sd s).
  by destruct (scan isalpha sd s).
Qed.

(** X2. Every bond the parser returns is a key of the spring mapping, so
    the list comprehension [[self.spring_dict[b] for b in self.bonds]] of
    [build_matrix] finds every spring constant. *)
Theorem parsed_bonds_have_springs sd s :
  let '(_, bonds) := SymbolicMolecularChain._parse_structure isalpha sd s in
  Forall (λ b, is_Some (sd !! b)) bonds ∧
  ∃ ks : list F, list_comp (dict_get sd) bonds = Ok ks ∧
                 length ks = length bonds.
Proof.
  rewrite symbolic_parse_scan.
  pose proof (scan_bonds_in_dict isalpha sd s) as Hb.
  destruct (scan isalpha sd s) as [atoms bonds]. cbn [snd] in Hb. split.
  - eapply Forall_impl; [exact Hb|]. intros b Hin.
    by apply bool_decide_eq_true in Hin.
  - destruct (in_dict_values sd bonds Hb) as [ks Hks]. exists ks.
    split; [by apply list_comp_ok|]. symmetry. by eapply Forall2_length.
Qed.

(** X3. The atoms are a subsequence of the structure string, and so are
    the bonds: the parser keeps the order of the characters and invents
    none. *)
Theorem parse_structure_sublists sd s :
  let '(atoms, bonds) := SymbolicMolecularChain._parse_structure isalpha sd s in
  atoms `sublist_of` s ∧ bonds `sublist_of` s.
Proof.
  rewrite symbolic_parse_scan.
  induction s as [|c rest Hc IH|c Hc|c b rest Hc Hb IH|c b rest Hc Hb IH]
    using (scan_induction isalpha sd).
  - done.
  - rewrite scan_skip by done. destruct (scan isalpha sd rest) as [a bs].
    destruct IH. split; by apply sublist_cons.
  - rewrite scan_atom_end by done. split; [done|]. apply sublist_nil_l.
  - rewrite scan_atom_bond by done. destruct (scan isalpha sd rest) as [a bs].
    destruct IH. cbn [fst snd]. split.
    + by apply sublist_skip, sublist_cons.
    + by apply sublist_cons, sublist_skip.
  - rewrite scan_atom_no_bond by done.
    destruct (scan isalpha sd (b :: rest)) as [a bs]. destruct IH.
    cbn [fst snd]. split; [by apply sublist_skip|by apply sublist_cons].
Qed.

(** X4. The chain is empty exactly when the structure string holds no
    alphabetic character. *)
Theorem no_atoms_iff_no_letter sd s md :
  ∃ ch,
    SymbolicMolecularChain.__init__ isalpha s md sd = Ok ch ∧
    (N ch = 0 ↔ Forall (λ c, isalpha c = false) s) ∧
    (N ch = 0 → bonds ch = []).
Proof.
  eexists. split; [apply symbolic_init_scan|]. cbn [N atoms bonds].
  pose proof (scan_alphabetic isalpha sd s) as Hperm.
  pose proof (scan_bonds_le isalpha sd s) as Hle.
  destruct (scan isalpha sd s) as [a bs]. cbn [fst snd] in *.
  split; [split|].
  - intros Ha. destruct a; [|done]. destruct bs; [|cbn in Hle; lia].
    apply Permutation_nil_r in Hperm.
    apply Forall_forall. intros c Hin.
    destruct (isalpha c) eqn:Hc; [|done].
    assert (c ∈ filter (λ c, isalpha c = true) s) as Hf
      by by apply list_elem_of_filter.
    rewrite Hperm in Hf. by apply not_elem_of_nil in Hf.
  - intros Hs. destruct a as [|x a]; [done|].
    assert (x ∈ filter (λ c, isalpha c = true) s) as Hx.
    { rewrite Hperm. apply list_elem_of_here. }
    apply list_elem_of_filter in Hx as [Hx Hin].
    rewrite Forall_forall in Hs. specialize (Hs x Hin). congruence.
  - intros Ha. destruct a; [|done]. destruct bs; [done|cbn in Hle; lia].
Qed.

Lemma scan_valid_alternate sd s :
  valid_structure isalpha sd s = true → scan isalpha sd s = alternate s.
Proof.
  induction s as [|c rest Hc IH|c Hc|c b rest Hc Hb IH|c b rest Hc Hb IH]
    using (scan_induction isalpha sd); cbn [valid_structure].
  - done.
  - by rewrite Hc.
  - by rewrite scan_atom_end.
  - rewrite Hc, Hb, scan_atom_bond by done. cbn [andb]. intros Hrest.
    rewrite (IH Hrest). cbn [alternate]. by destruct (alternate rest).
  - by rewrite Hc, Hb.
Qed.

Lemma valid_structure_length sd s :
  valid_structure isalpha sd s = true →
  length s + 1 = 2 * length (scan isalpha sd s).1.
Proof.
  induction s as [|c rest Hc IH|c Hc|c b rest Hc Hb IH|c b rest Hc Hb IH]
    using (scan_induction isalpha sd); cbn [valid_structure].
  - done.
  - by rewrite Hc.
  - by rewrite scan_atom_end.
  - rewrite Hc, Hb, scan_atom_bond by done. cbn [andb fst snd length].
    intros Hrest%IH. lia.
  - by rewrite Hc, Hb.
Qed.

(** X5. For a structure string in which atoms and recognised bond symbols
    alternate, starting and ending with an atom, the atoms are the
    characters at the even positions, the bonds those at the odd positions,
    and the string has [2N - 1] characters. *)
Theorem valid_structure_positions sd s md :
  valid_structure isalpha sd s = true →
  ∃ ch,
    SymbolicMolecularChain.__init__ isalpha s md sd = Ok ch ∧
    MolecularChainNumeric.__init__ isalpha s md sd = Ok ch ∧
    (atoms ch, bonds ch) = alternate s ∧
    length s + 1 = 2 * N ch.
Proof.
  intros Hs. eexists. split; [apply symbolic_init_scan|].
  split; [by rewrite numeric_init_eq, symbolic_init_scan|].
  cbn [atoms bonds N]. rewrite <- (scan_valid_alternate sd s Hs).
  split; [by destruct (scan isalpha sd s)|by apply valid_structure_length].
Qed.

(** X6. A character that is neither alphabetic nor a key of the spring
    mapping cuts the structure string in two: the parse of the whole is the
    parse of the part before it followed by the parse of the part after
    it.  In particular no bond joins the last atom before it to the first
    atom after it. *)
Theorem separator_splits_parse sd s1 sep s2 :
  isalpha sep = false → sd !! sep = None →
  SymbolicMolecularChain._parse_structure isalpha sd (s1 ++ sep :: s2)
  = ((SymbolicMolecularChain._parse_structure isalpha sd s1).1
       ++ (SymbolicMolecularChain._parse_structure isalpha sd s2).1,
     (SymbolicMolecularChain._parse_structure isalpha sd s1).2
       ++ (SymbolicMolecularChain._parse_structure isalpha sd s2).2).
Proof.
  intros Hsep Hkey. rewrite !symbolic_parse_scan.
  assert (in_dict sep sd = false) as Hsep'.
  { apply bool_decide_eq_false. rewrite Hkey. by intros [? ?]. }
  induction s1 as [|c rest Hc IH|c Hc|c b rest Hc Hb IH|c b rest Hc Hb IH]
    using (scan_induction isalpha sd); cbn [app].
  - rewrite scan_skip by done. by destruct (scan isalpha sd s2).
  - by rewrite !scan_skip.
  - rewrite scan_atom_no_bond, scan_atom_end, (scan_skip _ _ sep) by done.
    done.
  - rewrite !scan_atom_bond, IH by done. done.
  - rewrite !scan_atom_no_bond by done. cbn [app] in IH. by rewrite IH.
Qed.
End ParserCoverage.

(** ** More on the matrix builder *)

Section BuilderCoverage.
Context {char F : Type} `{Countable char} `{Field F}.
Variable isalpha : char → bool.
Implicit Types (md sd : gmap char F) (s : list char) (ch : Chain char F).

Lemma Fth_builder : field_theory f0 f1 fadd fmul fsub fopp fdiv finv (@eq F).
Proof. exact field_laws. Qed.
Add Field Ffield_builder : Fth_builder.

Lemma dynamical_matrix_surplus n (ms ks extra : list F) :
  n - 1 ≤ length ks →
  dynamical_matrix n ms (ks ++ extra) = dynamical_matrix n ms ks.
Proof.
  intros Hks. unfold dynamical_matrix, dynamical_row.
  apply list_fmap_ext. intros pi i Hi%lookup_seq.
  apply list_fmap_ext. intros pj j Hj%lookup_seq.
  unfold dynamical_entry, ratio.
  repeat case_decide; destruct_and?; try done;
    rewrite ?app_nth1 by lia; done.
Qed.

(** X8. A recognised bond symbol written after the last atom of a
    well-formed structure string changes nothing: building the chain of the
    longer string gives what building the chain of the string without it
    gives.  The surplus spring constant is never read. *)
Theorem trailing_bond_is_ignored s b md sd :
  valid_structure isalpha sd s = true → is_Some (sd !! b) →
  (ch ← SymbolicMolecularChain.__init__ isalpha (s ++ [b]) md sd ;;;
   SymbolicMolecularChain.build_matrix ch)
  = (ch ← SymbolicMolecularChain.__init__ isalpha s md sd ;;;
     SymbolicMolecularChain.build_matrix ch).
Proof.
  intros Hs Hb. rewrite !symbolic_init_scan. cbn [rbind].
  rewrite scan_trailing_bond by (done || by apply bool_decide_eq_true).
  pose proof (scan_valid isalpha sd s Hs) as Hlen.
  pose proof (scan_bonds_in_dict isalpha sd s) as Hbonds.
  destruct (scan isalpha sd s) as [ats bds]. cbn [fst snd] in *.
  destruct (first_missing md ats) as [a|] eqn:Hfirst.
  - by rewrite !(build_matrix_key_error _ a).
  - apply first_missing_None in Hfirst as [ms Hms].
    destruct (in_dict_values sd bds Hbonds) as [ks Hks].
    destruct Hb as [kb Hkb].
    rewrite (build_matrix_ok _ ms (ks ++ [kb])), (build_matrix_ok _ ms ks);
      cbn [N atoms bonds mass_dict spring_dict]; try done; try lia.
    + f_equal. apply dynamical_matrix_surplus.
      rewrite <- (Forall2_length _ _ _ Hks). lia.
    + apply Forall2_app; [done|]. by repeat constructor.
    + rewrite length_app. lia.
Qed.


Lemma dynamical_entry_equal_masses n (ms ks : list F) mass i j :
  length ms = n → Forall (λ x, x = mass) ms → i < n → j < n →
  dynamical_entry n ms ks i j = dynamical_entry n ms ks j i.
Proof.
  intros Hlen Hms Hi Hj.
  assert (∀ a, a < n → nth a ms f0 = mass) as Hnth.
  { intros a Ha. destruct (nth_lookup_or_length ms a f0) as [Hx|]; [|lia].
    exact (Forall_lookup_1 _ _ _ _ Hms Hx). }
  unfold dynamical_entry, ratio.
  repeat case_decide; destruct_and?; simplify_eq; try lia; try done.
  - replace (j + 1 - 1) with j by lia. by rewrite !Hnth by lia.
  - by rewrite !Hnth by lia.
Qed.

(** X10. When all the atoms of the chain have the same mass, the matrix is
    symmetric. *)
Theorem equal_masses_symmetric s md sd ch (ms ks : list F) (mass : F) :
  SymbolicMolecularChain.__init__ isalpha s md sd = Ok ch →
  Forall2 (λ a v, md !! a = Some v) (atoms ch) ms →
  Forall2 (λ b v, sd !! b = Some v) (bonds ch) ks →
  N ch - 1 ≤ length (bonds ch) →
  Forall (λ x, x = mass) ms →
  ∃ A : list (list F),
    SymbolicMolecularChain.build_matrix ch = Ok A ∧
    MolecularChainNumeric.build_matrix ch = Ok A ∧
    symmetric (char := char) (N ch) A.
Proof.
  intros Hinit Hms Hks Hlen Hmass.
  destruct (init_inv isalpha _ _ _ _ Hinit) as (Hmd & Hsd & _ & HN).
  exists (dynamical_matrix (N ch) ms ks).
  assert (SymbolicMolecularChain.build_matrix ch
          = Ok (dynamical_matrix (N ch) ms ks)) as Hbuild.
  { apply build_matrix_ok; [done| | |done]; by subst. }
  split; [done|]. split; [by rewrite numeric_build_matrix_eq|].
  intros i j Hi Hj. rewrite !dynamical_matrix_get by done. f_equal.
  apply dynamical_entry_equal_masses with mass; try done.
  rewrite HN. symmetry. by eapply Forall2_length.
Qed.

(** X11. A chain of a single atom that has a mass gives the 1-by-1 zero
    matrix, whatever the mass and whatever bonds were parsed. *)
Theorem single_atom_matrix s md sd ch :
  SymbolicMolecularChain.__init__ isalpha s md sd = Ok ch →
  N ch = 1 → first_missing md (atoms ch) = None →
  SymbolicMolecularChain.build_matrix ch = Ok [[f0]] ∧
  MolecularChainNumeric.build_matrix ch = Ok [[f0]].
Proof.
  intros Hinit HN1 [ms Hms]%first_missing_None.
  destruct (init_inv isalpha _ _ _ _ Hinit) as (Hmd & Hsd & _ & HN).
  pose proof (init_bonds_in_dict _ _ _ _ _ Hinit) as [ks Hks]%in_dict_values.
  assert (SymbolicMolecularChain.build_matrix ch = Ok [[f0]]) as Hbuild.
  { rewrite (build_matrix_ok ch ms ks); [|done|by rewrite Hmd|done|lia].
    rewrite HN1. f_equal. cbv -[fadd f0]. do 2 f_equal. ring. }
  split; [done|]. by rewrite numeric_build_matrix_eq.
Qed.

(** X12. When the structure string is well formed and each of its atoms has
    a mass that is not zero, [build_matrix] raises nothing and returns a
    matrix of [(len(structure) + 1) / 2] rows. *)
Theorem valid_structure_builds s md sd :
  valid_structure isalpha sd s = true →
  (∀ a, a ∈ s → isalpha a = true → ∃ v, md !! a = Some v ∧ v ≠ f0) →
  ∃ ch (A : list (list F)),
    SymbolicMolecularChain.__init__ isalpha s md sd = Ok ch ∧
    SymbolicMolecularChain.build_matrix ch = Ok A ∧
    MolecularChainNumeric.build_matrix ch = Ok A ∧
    length A = N ch ∧ 2 * length A = length s + 1.
Proof.
  intros Hs Hmasses.
  pose proof (symbolic_init_scan isalpha s md sd) as Hinit.
  pose proof (scan_valid isalpha sd s Hs) as Hlen.
  pose proof (valid_structure_length isalpha sd s Hs) as Hlen2.
  pose proof (scan_bonds_in_dict isalpha sd s) as [ks Hks]%in_dict_values.
  pose proof (scan_atoms_alpha isalpha sd s) as Halpha.
  pose proof (parse_structure_sublists isalpha sd s) as Hsub.
  rewrite symbolic_parse_scan in Hsub.
  destruct (scan isalpha sd s) as [ats bds] eqn:Hscan. cbn [fst snd] in *.
  destruct Hsub as [Hsub _].
  assert (∃ ms, Forall2 (λ a v, md !! a = Some v) ats ms) as [ms Hms].
  { apply first_missing_None. unfold first_missing.
    apply head_None, filter_none, Forall_forall. intros a Ha.
    destruct (Hmasses a) as (v & Hv & _).
    - by eapply elem_of_sublist.
    - rewrite Forall_forall in Halpha. by apply Halpha.
    - by rewrite Hv. }
  eexists. exists (dynamical_matrix (length ats) ms ks).
  split; [exact Hinit|].
  assert (SymbolicMolecularChain.build_matrix
            {| structure := s; mass_dict := md; spring_dict := sd;
               atoms := ats; bonds := bds; N := length ats |}
          = Ok (dynamical_matrix (length ats) ms ks)) as Hbuild.
  { apply build_matrix_ok; cbn [N atoms bonds mass_dict spring_dict];
      [done..|lia]. }
  split; [done|]. split; [by rewrite numeric_build_matrix_eq|].
  rewrite dynamical_matrix_length. cbn [N]. split; [done|lia].
Qed.
End BuilderCoverage.

(** ** Determinants of tridiagonal blocks *)

Section Determinants.
Context {F : Type} `{Field F}.
Implicit Types (E : nat → nat → F) (M : list (list F)).

Lemma Fth_det : field_theory f0 f1 fadd fmul fsub fopp fdiv finv (@eq F).
Proof. exact field_laws. Qed.
Add Field Ffield_det : Fth_det.

Lemma alt_sum_imap_zero (g : nat → F → F) (l : list F) :
  (∀ c a, l !! c = Some a → g c a = f0) → alt_sum (imap g l) = f0.
Proof.
  revert g. induction l as [|x l IH]; intros g Hg; [done|].
  rewrite imap_cons. cbn [alt_sum].
  rewrite (Hg 0 x eq_refl), IH; [ring|].
  intros c a Hc. apply (Hg (S c) a Hc).
Qed.

(** A square matrix whose first column is zero has determinant zero. *)
Lemma det_zero_column n M :
  length M = S n →
  Forall (λ row, ∃ r, row = f0 :: r ∧ length r = n) M →
  det (S n) M = f0.
Proof.
  revert M. induction n as [|n IH]; intros M Hlen Hrows.
  - destruct M as [|row rest]; [done|].
    apply Forall_cons in Hrows as [(r & -> & Hr) _].
    destruct r; [|done]. cbn. ring.
  - destruct M as [|row rest]; [done|].
    apply Forall_cons in Hrows as [(r & -> & Hr) Hrest].
    change (det (S (S n)) ((f0 :: r) :: rest))
      with (alt_sum (imap (λ c a, fmul a (det (S n) (delete c <$> rest)))
                       (f0 :: r))).
    apply alt_sum_imap_zero. intros [|c] a Hc.
    + injection Hc as <-. ring.
    + cbn in Hc. apply lookup_lt_Some in Hc.
      rewrite IH; [ring| |].
      * rewrite length_fmap. cbn in Hlen. lia.
      * apply Forall_fmap. eapply Forall_impl; [exact Hrest|].
        intros row (r' & -> & Hr'). exists (delete c r'). split; [done|].
        rewrite length_delete; [lia|]. apply lookup_lt_is_Some. lia.
Qed.

Lemma block_S E j n :
  block E j (S n)
  = (E j j :: (E j <$> seq (S j) n))
      :: ((λ i, E i j :: (E i <$> seq (S j) n)) <$> seq (S j) n).
Proof. reflexivity. Qed.

Lemma block_ext E E' j n :
  (∀ i c, E i c = E' i c) → block E j n = block E' j n.
Proof.
  intros HE. unfold block. apply list_fmap_ext. intros ? i _.
  apply list_fmap_ext. intros ? c _. apply HE.
Qed.

Lemma block_length E j n : length (block E j n) = n.
Proof. unfold block. by rewrite length_fmap, length_seq. Qed.

(** The three-term recurrence of tridiagonal determinants. *)
Lemma det_block_step E j n :
  (∀ i c, S i < c ∨ S c < i → E i c = f0) →
  det (S (S n)) (block E j (S (S n)))
  = fsub (fmul (E j j) (det (S n) (block E (S j) (S n))))
         (fmul (E j (S j)) (fmul (E (S j) j) (det n (block E (S (S j)) n)))).
Proof.
  intros Htri. rewrite (block_S E j (S n)).
  set (rest := (λ i, E i j :: (E i <$> seq (S j) (S n))) <$> seq (S j) (S n)).
  change (det (S (S n)) ((E j j :: (E j <$> seq (S j) (S n))) :: rest))
    with (alt_sum (imap (λ c a, fmul a (det (S n) (delete c <$> rest)))
                     (E j j :: E j (S j) :: (E j <$> seq (S (S j)) n)))).
  rewrite !imap_cons. cbn [alt_sum compose].
  rewrite alt_sum_imap_zero.
  2:{ intros c a Hc. rewrite list_lookup_fmap in Hc.
      destruct (seq (S (S j)) n !! c) as [i|] eqn:Hi; [|done].
      apply lookup_seq in Hi as [-> _]. injection Hc as <-.
      rewrite Htri by lia. cbn. ring. }
  assert (delete 0 <$> rest = block E (S j) (S n)) as ->.
  { unfold rest. rewrite <- list_fmap_compose. reflexivity. }
  assert (delete 1 <$> rest
          = (E (S j) j :: (E (S j) <$> seq (S (S j)) n))
              :: ((λ i, E i j :: (E i <$> seq (S (S j)) n)) <$> seq (S (S j)) n))
    as ->.
  { unfold rest. rewrite <- list_fmap_compose. reflexivity. }
  set (rest1 := (λ i, E i j :: (E i <$> seq (S (S j)) n)) <$> seq (S (S j)) n).
  assert (det (S n) ((E (S j) j :: (E (S j) <$> seq (S (S j)) n)) :: rest1)
          = fmul (E (S j) j) (det n (block E (S (S j)) n))) as ->.
  { change (det (S n) ((E (S j) j :: (E (S j) <$> seq (S (S j)) n)) :: rest1))
      with (alt_sum (imap (λ c a, fmul a (det n (delete c <$> rest1)))
                       (E (S j) j :: (E (S j) <$> seq (S (S j)) n)))).
    rewrite imap_cons. cbn [alt_sum].
    assert (delete 0 <$> rest1 = block E (S (S j)) n) as ->.
    { unfold rest1. rewrite <- list_fmap_compose. reflexivity. }
    rewrite alt_sum_imap_zero; [ring|].
    intros c a Hc. apply lookup_lt_Some in Hc.
    rewrite length_fmap, length_seq in Hc.
    destruct n as [|n']; [lia|]. cbn [compose].
    rewrite det_zero_column; [ring| |].
    - unfold rest1. by rewrite !length_fmap, length_seq.
    - unfold rest1. rewrite <- list_fmap_compose. apply Forall_fmap.
      apply Forall_forall. intros i [Hi _]%elem_of_seq. cbn.
      rewrite Htri by lia. eexists. split; [reflexivity|].
      etrans; [apply length_delete|].
      + apply lookup_lt_is_Some. cbn. rewrite length_fmap, length_seq. lia.
      + cbn. rewrite length_fmap, length_seq. lia. }
  cbn [compose]. ring.
Qed.

(** [matrix - lambda * eye(N)] entry by entry. *)
Lemma mat_sub_scale_eye E n (lambda : F) :
  mat_sub (block E 0 n) (mat_scale lambda (eye n))
  = block (λ i c, fsub (E i c) (fmul lambda (if decide (i = c) then f1 else f0)))
      0 n.
Proof.
  unfold mat_sub, mat_scale, eye, block.
  rewrite <- list_fmap_compose, zip_with_fmap_l, zip_with_fmap_r, zip_with_diag.
  apply list_fmap_ext. intros ? i _. cbn [compose].
  rewrite <- list_fmap_compose, zip_with_fmap_l, zip_with_fmap_r, zip_with_diag.
  done.
Qed.

Lemma dynamical_entry_tridiagonal n (m k : list F) i c :
  S i < c ∨ S c < i → dynamical_entry n m k i c = f0.
Proof. intros Hic. unfold dynamical_entry. by rewrite !decide_False by lia. Qed.

(** The determinant of the block below and to the right of [(j, j)],
    [j > 0], of the dynamical matrix. *)
Lemma det_trailing_block N (m k : list F) n :
  (∀ j, 1 ≤ j → j + n = N →
        det n (block (dynamical_entry N m k) j n) = ratio_product m k j n) ∧
  (∀ j, 1 ≤ j → j + S n = N →
        det (S n) (block (dynamical_entry N m k) j (S n))
        = ratio_product m k j (S n)).
Proof.
  induction n as [|n [IH1 IH2]].
  - split; [done|]. intros j Hj HN.
    cbv -[fadd fmul fsub fopp fdiv finv f0 f1 dynamical_entry ratio Nat.sub].
    unfold dynamical_entry.
    rewrite decide_True, decide_True, decide_False by lia. ring.
  - split; [exact IH2|]. intros j Hj HN.
    rewrite det_block_step by apply dynamical_entry_tridiagonal.
    rewrite IH2, IH1 by lia.
    cbn [ratio_product]. unfold dynamical_entry.
    rewrite (decide_True (P := j = j)) by done.
    rewrite (decide_True (P := 0 < j)), (decide_True (P := j < N - 1)) by lia.
    rewrite (decide_False (P := S j = j)) by lia.
    rewrite (decide_False (P := 0 < j ∧ S j = j - 1)) by lia.
    rewrite (decide_True (P := j < N - 1 ∧ S j = j + 1)) by lia.
    rewrite (decide_False (P := j = S j)) by lia.
    rewrite (decide_True (P := 0 < S j ∧ j = S j - 1)) by lia.
    replace (S j - 1) with j by lia. ring.
Qed.

(** The determinant of the dynamical matrix of a chain with an atom at
    least is zero. *)
Lemma det_dynamical_matrix N (m k : list F) :
  1 ≤ N → det N (dynamical_matrix N m k) = f0.
Proof.
  intros HN. change (dynamical_matrix N m k)
    with (block (dynamical_entry N m k) 0 N).
  destruct N as [|[|n]]; [lia| |].
  - cbv -[fadd fmul fsub fopp fdiv finv f0 f1]. ring.
  - rewrite det_block_step by apply dynamical_entry_tridiagonal.
    destruct (det_trailing_block (S (S n)) m k n) as [IH1 IH2].
    rewrite IH2, IH1 by lia.
    cbn [ratio_product]. unfold dynamical_entry.
    rewrite (decide_True (P := 0 = 0)) by done.
    rewrite (decide_False (P := 0 < 0)) by lia.
    rewrite (decide_True (P := 0 < S (S n) - 1)) by lia.
    rewrite (decide_False (P := 1 = 0)) by lia.
    rewrite (decide_False (P := 0 < 0 ∧ 1 = 0 - 1)) by lia.
    rewrite (decide_True (P := 0 < S (S n) - 1 ∧ 1 = 0 + 1)) by lia.
    rewrite (decide_False (P := 0 = 1)) by lia.
    rewrite (decide_True (P := 0 < 1 ∧ 0 = 1 - 1)) by lia.
    cbn [Nat.sub]. ring.
Qed.

Lemma characteristic_polynomial_at_zero N (m k : list F) :
  1 ≤ N →
  SymbolicEigenSolver.characteristic_polynomial (dynamical_matrix N m k) f0 = f0.
Proof.
  intros HN. unfold SymbolicEigenSolver.characteristic_polynomial.
  cbv zeta. rewrite dynamical_matrix_length.
  change (dynamical_matrix N m k) with (block (dynamical_entry N m k) 0 N).
  rewrite mat_sub_scale_eye.
  rewrite (block_ext _ (dynamical_entry N m k)).
  - by apply det_dynamical_matrix.
  - intros i c. cbn. ring.
Qed.
End Determinants.

(** ** More on the eigenvalues *)

Section EigenCoverage.
Context {char F : Type} `{Countable char} `{Field F} `{EqDecision F}.
Variable isalpha : char → bool.
Implicit Types (md sd : gmap char F) (s : list char) (ch : Chain char F).

Lemma Fth_eigen : field_theory f0 f1 fadd fmul fsub fopp fdiv finv (@eq F).
Proof. exact field_laws. Qed.
Add Field Ffield_eigen : Fth_eigen.

(** X13. Zero is a root of the characteristic polynomial of the matrix of
    every chain that has an atom at least (and for which [build_matrix]
    returns): the translation of the whole chain is always a mode. *)
Theorem zero_is_an_eigenvalue s md sd ch (ms ks : list F) :
  SymbolicMolecularChain.__init__ isalpha s md sd = Ok ch →
  Forall2 (λ a v, md !! a = Some v) (atoms ch) ms →
  Forall2 (λ b v, sd !! b = Some v) (bonds ch) ks →
  N ch - 1 ≤ length (bonds ch) →
  1 ≤ N ch →
  ∃ A : list (list F),
    SymbolicMolecularChain.build_matrix ch = Ok A ∧
    MolecularChainNumeric.build_matrix ch = Ok A ∧
    SymbolicEigenSolver.characteristic_polynomial A f0 = f0 ∧
    SymbolicEigenSolver.eigenvalue A f0.
Proof.
  intros Hinit Hms Hks Hlen HN1.
  destruct (init_inv isalpha _ _ _ _ Hinit) as (Hmd & Hsd & _ & HN).
  exists (dynamical_matrix (N ch) ms ks).
  assert (SymbolicMolecularChain.build_matrix ch
          = Ok (dynamical_matrix (N ch) ms ks)) as Hbuild.
  { apply build_matrix_ok; [done| | |done]; by subst. }
  split; [done|]. split; [by rewrite numeric_build_matrix_eq|].
  split; by apply characteristic_polynomial_at_zero.
Qed.

(** X14. A chain of two atoms joined by one bond, of masses [m0] and [m1]
    and spring constant [k]: the roots of the characteristic polynomial
    are exactly [0] and [k/m0 + k/m1] (for "C=C": [0] and [2k/M]). *)
Theorem two_atom_chain_eigenvalues (a b c : char) md sd (m0 m1 k : F) :
  isalpha a = true → isalpha c = true →
  md !! a = Some m0 → md !! c = Some m1 → sd !! b = Some k →
  ∃ ch (A : list (list F)),
    SymbolicMolecularChain.__init__ isalpha [a; b; c] md sd = Ok ch ∧
    atoms ch = [a; c] ∧ bonds ch = [b] ∧
    SymbolicMolecularChain.build_matrix ch = Ok A ∧
    ∀ lambda,
      SymbolicEigenSolver.eigenvalue A lambda
      ↔ lambda = f0 ∨ lambda = fadd (fdiv k m0) (fdiv k m1).
Proof.
  intros Ha Hc Hm0 Hm1 Hk.
  assert (scan isalpha sd [a; b; c] = ([a; c], [b])) as Hscan.
  { rewrite scan_atom_bond, scan_atom_end; [done..|].
    apply bool_decide_eq_true. by rewrite Hk. }
  eexists. exists (dynamical_matrix 2 [m0; m1] [k]).
  split; [apply symbolic_init_scan|]. rewrite Hscan. cbn [fst snd length].
  split; [done|]. split; [done|]. split.
  - apply (build_matrix_ok (char := char));
      cbn [N atoms bonds mass_dict spring_dict]; [done| | |done];
      by repeat constructor.
  - intros lambda. apply diatomic_eigenvalues.
Qed.

(** X15. The estimates of the notebook invert the eigenvalues of the
    chains: from [w_2^2 = k/m] and [w_3^2 = k/m * (1 + 2m/M)], the two
    non-zero eigenvalues of "O=C=O", [k_from_w2], [k_from_w3] and their
    average all give [k] back; from [w_cc^2 = 2K/M], the non-zero
    eigenvalue of "C=C", [(w_cc**2) * M / 2] gives [K] back. *)
Theorem estimates_invert_eigenvalues (m M k K w_2 w_3 w_cc : F) :
  m ≠ f0 → M ≠ f0 → fadd f1 f1 ≠ f0 →
  fadd (fdiv f1 m) (fdiv (fadd f1 f1) M) ≠ f0 →
  fmul w_2 w_2 = fdiv k m →
  fmul w_3 w_3 = fmul (fdiv k m) (fadd f1 (fdiv (fmul (fadd f1 f1) m) M)) →
  fmul w_cc w_cc = fdiv (fmul (fadd f1 f1) K) M →
  Estimates.k_from_w2 w_2 m = k ∧
  Estimates.k_from_w3 w_3 m M = k ∧
  Estimates.k_avg (Estimates.k_from_w2 w_2 m) (Estimates.k_from_w3 w_3 m M) = k ∧
  Estimates.K_from_wcc w_cc M = K.
Proof.
  intros Hm HM H2 HD Hw2 Hw3 Hwcc.
  assert (Estimates.k_from_w2 w_2 m = k) as E2.
  { unfold Estimates.k_from_w2. rewrite Hw2. by field. }
  assert (Estimates.k_from_w3 w_3 m M = k) as E3.
  { unfold Estimates.k_from_w3. rewrite Hw3.
    set (D := fadd (fdiv f1 m) (fdiv (fadd f1 f1) M)) in *.
    assert (fmul (fdiv k m) (fadd f1 (fdiv (fmul (fadd f1 f1) m) M))
            = fmul k D) as -> by (subst D; by field).
    by field. }
  split; [done|]. split; [done|]. split.
  - rewrite E2, E3. unfold Estimates.k_avg. by field.
  - unfold Estimates.K_from_wcc. rewrite Hwcc. by field.
Qed.
End EigenCoverage.

(** ** The further properties on the chains of the notebook *)

Section NotebookCoverage.
Import Examples.
Local Open Scope char_scope.


Lemma co2_init (mO mC k : Qc) :
  SymbolicMolecularChain.__init__ Latin1.isalpha (Latin1.str "O=C=O")
    (masses mO mC) (springs k)
  = Ok {| structure := Latin1.str "O=C=O"; mass_dict := masses mO mC;
          spring_dict := springs k; atoms := ["O"; "C"; "O"];
          bonds := ["="; "="]; N := 3 |}.
Proof. rewrite symbolic_init_scan, co2_scan. reflexivity. Defined.

Lemma valid_structure_positions_witness :
  valid_structure Latin1.isalpha (springs (qc 3)) (Latin1.str "O=C=O") = true ∧
  ∃ ch,
    SymbolicMolecularChain.__init__ Latin1.isalpha (Latin1.str "O=C=O")
      (masses (qc 16) (qc 12)) (springs (qc 3)) = Ok ch ∧
    (atoms ch, bonds ch) = (["O"; "C"; "O"], ["="; "="]) ∧
    length (Latin1.str "O=C=O") + 1 = 2 * N ch.
Proof.
  split; [reflexivity|].
  destruct (valid_structure_positions Latin1.isalpha (springs (qc 3))
              (Latin1.str "O=C=O") (masses (qc 16) (qc 12)) eq_refl)
    as (ch & Hinit & _ & Hpos & Hlen).
  exists ch. split; [exact Hinit|]. split; [exact Hpos|exact Hlen].
Defined.

Lemma separator_splits_parse_witness :
  Latin1.isalpha " " = false ∧ springs (qc 3) !! " " = None ∧
  SymbolicMolecularChain._parse_structure Latin1.isalpha (springs (qc 3))
    (Latin1.str "O=C C=O")
  = (["O"; "C"; "C"; "O"], ["="; "="]).
Proof.
  split; [reflexivity|]. split; [reflexivity|].
  change (Latin1.str "O=C C=O")
    with (Latin1.str "O=C" ++ " " :: Latin1.str "C=O").
  rewrite (separator_splits_parse Latin1.isalpha (springs (qc 3))
             (Latin1.str "O=C") " " (Latin1.str "C=O") eq_refl eq_refl).
  reflexivity.
Defined.

Lemma trailing_bond_is_ignored_witness :
  valid_structure Latin1.isalpha (springs (qc 3)) (Latin1.str "O=C") = true ∧
  (ch ← SymbolicMolecularChain.__init__ Latin1.isalpha (Latin1.str "O=C=")
          (masses (qc 16) (qc 12)) (springs (qc 3)) ;;;
   SymbolicMolecularChain.build_matrix ch)
  = (ch ← SymbolicMolecularChain.__init__ Latin1.isalpha (Latin1.str "O=C")
            (masses (qc 16) (qc 12)) (springs (qc 3)) ;;;
     SymbolicMolecularChain.build_matrix ch).
Proof.
  split; [reflexivity|].
  apply (trailing_bond_is_ignored Latin1.isalpha (Latin1.str "O=C") "="
           (masses (qc 16) (qc 12)) (springs (qc 3)) eq_refl).
  exists (qc 3). reflexivity.
Defined.


Lemma c_c_init :
  SymbolicMolecularChain.__init__ Latin1.isalpha (Latin1.str "C=C")
    (masses (qc 16) (qc 12)) (springs (qc 3))
  = Ok {| structure := Latin1.str "C=C"; mass_dict := masses (qc 16) (qc 12);
          spring_dict := springs (qc 3); atoms := ["C"; "C"]; bonds := ["="];
          N := 2 |}.
Proof. rewrite symbolic_init_scan. reflexivity. Defined.

Lemma equal_masses_symmetric_witness :
  ∃ A,
    MolecularChainNumeric.build_matrix
      {| structure := Latin1.str "C=C"; mass_dict := masses (qc 16) (qc 12);
         spring_dict := springs (qc 3); atoms := ["C"; "C"]; bonds := ["="];
         N := 2 |} = Ok A ∧
    symmetric (char := ascii) 2 A.
Proof.
  destruct (equal_masses_symmetric Latin1.isalpha _ _ _ _
              [qc 12; qc 12] [qc 3] (qc 12) c_c_init)
    as (A & _ & HA & Hsym).
  - repeat constructor.
  - repeat constructor.
  - cbn. lia.
  - repeat constructor.
  - exists A. split; [exact HA|exact Hsym].
Defined.

Lemma c_init :
  SymbolicMolecularChain.__init__ Latin1.isalpha (Latin1.str "C")
    (masses (qc 16) (qc 12)) (springs (qc 3))
  = Ok {| structure := Latin1.str "C"; mass_dict := masses (qc 16) (qc 12);
          spring_dict := springs (qc 3); atoms := ["C"]; bonds := [];
          N := 1 |}.
Proof. rewrite symbolic_init_scan. reflexivity. Defined.

Lemma single_atom_matrix_witness :
  MolecularChainNumeric.build_matrix
    {| structure := Latin1.str "C"; mass_dict := masses (qc 16) (qc 12);
       spring_dict := springs (qc 3); atoms := ["C"]; bonds := [];
       N := 1 |} = Ok [[f0]].
Proof.
  apply (single_atom_matrix Latin1.isalpha _ _ _ _ c_init); reflexivity.
Defined.

Lemma co2_letters_have_masses a :
  a ∈ Latin1.str "O=C=O" → Latin1.isalpha a = true →
  ∃ v, masses (qc 16) (qc 12) !! a = Some v ∧ v ≠ f0.
Proof.
  intros Hin Ha. apply list_elem_of_In in Hin. cbn in Hin.
  destruct Hin as [<-|[<-|[<-|[<-|[<-|[]]]]]]; try discriminate Ha;
    eexists; (split; [reflexivity|by apply qc_nonzero]).
Defined.

Lemma valid_structure_builds_witness :
  valid_structure Latin1.isalpha (springs (qc 3)) (Latin1.str "O=C=O") = true ∧
  ∃ ch (A : list (list Qc)),
    SymbolicMolecularChain.__init__ Latin1.isalpha (Latin1.str "O=C=O")
      (masses (qc 16) (qc 12)) (springs (qc 3)) = Ok ch ∧
    SymbolicMolecularChain.build_matrix ch = Ok A ∧
    2 * length A = 6.
Proof.
  split; [reflexivity|].
  destruct (valid_structure_builds Latin1.isalpha (Latin1.str "O=C=O")
              (masses (qc 16) (qc 12)) (springs (qc 3)) eq_refl
              co2_letters_have_masses)
    as (ch & A & Hinit & HA & _ & _ & Hlen).
  exists ch, A. split; [exact Hinit|]. split; [exact HA|exact Hlen].
Defined.

Lemma zero_is_an_eigenvalue_witness :
  ∃ A,
    SymbolicMolecularChain.build_matrix
      {| structure := Latin1.str "O=C=O"; mass_dict := masses (qc 16) (qc 12);
         spring_dict := springs (qc 3); atoms := ["O"; "C"; "O"];
         bonds := ["="; "="]; N := 3 |} = Ok A ∧
    SymbolicEigenSolver.eigenvalue A f0.
Proof.
  destruct (zero_is_an_eigenvalue Latin1.isalpha _ _ _ _
              [qc 16; qc 12; qc 16] [qc 3; qc 3]
              (co2_init (qc 16) (qc 12) (qc 3)))
    as (A & HA & _ & _ & Heig).
  - repeat constructor.
  - repeat constructor.
  - cbn. lia.
  - cbn. lia.
  - exists A. split; [exact HA|exact Heig].
Defined.

Lemma two_atom_chain_eigenvalues_witness :
  ∃ ch A,
    SymbolicMolecularChain.__init__ Latin1.isalpha (Latin1.str "C=C")
      (masses (qc 16) (qc 12)) (springs (qc 3)) = Ok ch ∧
    SymbolicMolecularChain.build_matrix ch = Ok A ∧
    SymbolicEigenSolver.eigenvalue A
      (fadd (fdiv (qc 3) (qc 12)) (fdiv (qc 3) (qc 12))).
Proof.
  destruct (two_atom_chain_eigenvalues Latin1.isalpha "C" "=" "C"
              (masses (qc 16) (qc 12)) (springs (qc 3))
              (qc 12) (qc 12) (qc 3) eq_refl eq_refl eq_refl eq_refl eq_refl)
    as (ch & A & Hinit & _ & _ & HA & Heig).
  exists ch, A. split; [exact Hinit|]. split; [exact HA|].
  apply Heig. right. reflexivity.
Defined.

Lemma estimates_invert_eigenvalues_witness :
  Estimates.k_from_w2 (fdiv (qc 1) (qc 2)) (qc 4) = qc 1 ∧
  Estimates.k_from_w3 (fdiv (qc 3) (qc 2)) (qc 4) (qc 1) = qc 1 ∧
  Estimates.K_from_wcc (qc 2) (qc 1) = qc 2.
Proof.
  destruct (estimates_invert_eigenvalues (qc 4) (qc 1) (qc 1) (qc 2)
              (fdiv (qc 1) (qc 2)) (fdiv (qc 3) (qc 2)) (qc 2))
    as (E2 & E3 & _ & EK).
  - by apply qc_nonzero.
  - by apply qc_nonzero.
  - intros Heq. apply (f_equal this) in Heq. discriminate Heq.
  - intros Heq. apply (f_equal this) in Heq. discriminate Heq.
  - apply Qc_is_canon. reflexivity.
  - apply Qc_is_canon. reflexivity.
  - apply Qc_is_canon. reflexivity.
  - split; [exact E2|]. split; [exact E3|exact EK].
Defined.
End NotebookCoverage.

(** ** When the matrix is symmetric *)

Section Symmetry.
Context {char F : Type} `{Countable char} `{Field F}.
Variable isalpha : char → bool.
Implicit Types (md sd : gmap char F) (s : list char) (ch : Chain char F).

Lemma Fth_symmetry : field_theory f0 f1 fadd fmul fsub fopp fdiv finv (@eq F).
Proof. exact field_laws. Qed.
Add Field Ffield_symmetry : Fth_symmetry.




End Symmetry.

